(** * statistics-bootstrap: balanced resampling and the smoothed median

    A shallow embedding of the two kernels of the package,
    [src/boot.cc] (balanced bootstrap / bootknife sample indices) and
    [src/smoothmedian.cpp] (smoothed median by Newton-Bisection), with the
    properties of each established on the embedding.

    - [Boot] follows [boot.cc]: C [int] and [short] values are integers with
      their two's-complement wrap-around written out, the counter array [c]
      is a list read and written by index, and the loops are recursions on
      their trip count.
    - [SmoothMedian] follows [smoothmedian.cpp] on IEEE binary64 numbers
      (the kernel's primitive floats), so that NaN, infinities and rounding
      behave as they do in the compiled code. *)

From Stdlib Require Import ZArith QArith Lia List Bool Floats Sorted.
From stdpp Require Import base list.
Import ListNotations.

(* ================================================================== *)
(** * Part I: boot.cc *)
(* ================================================================== *)

Module Boot.

Local Open Scope Z_scope.

(** ** Machine integers *)

Definition INT_MAX : Z := 2147483647.
Definition INT_MIN : Z := -2147483648.
Definition SHRT_MAX : Z := 32767.

(** Two's-complement reduction of an integer to [int] (32 bits) and to
    [short] (16 bits). *)
Definition wrap_int (z : Z) : Z := (z + 2147483648) mod 4294967296 - 2147483648.
Definition wrap_short (z : Z) : Z := (z + 32768) mod 65536 - 32768.

(** ** Outcomes

    A call either returns a value, stops in [print_usage ()], or leaves the
    behaviour the language defines. *)

Inductive undefined : Type :=
| OutOfBounds      (* a read or write of [c] outside [0, n) *)
| DivisionByZero   (* [b / n] with [n = 0] *)
| NegativeLength.  (* [int c[n]] or [dim_vector dv (n, nboot)] with a negative extent *)

Inductive outcome (A : Type) : Type :=
| Ok (a : A)
| UsageError
| Undefined (u : undefined).

Arguments Ok {A} a.
Arguments UsageError {A}.
Arguments Undefined {A} u.

#[global] Instance outcome_bind : MBind outcome := fun A B f x =>
  match x with
  | Ok a => f a
  | UsageError => UsageError
  | Undefined u => Undefined u
  end.

(** ** The arguments *)

Inductive octave_value : Type :=
| ov_int (z : Z)
| ov_bool (b : bool).

Definition int_value (v : octave_value) : Z :=
  match v with
  | ov_int z => z
  | ov_bool b => if b then 1 else 0
  end.

Definition bool_value (v : octave_value) : bool :=
  match v with
  | ov_int z => negb (z =? 0)
  | ov_bool b => b
  end.

(** ** The counter array

    [c] is a list; [rd c i] is the read [c[i]] and [wr c i x] the write
    [c[i] = x], for an [int] index [i].  A read outside the array has no
    value. *)

Definition rd (c : list Z) (i : Z) : option Z :=
  if i <? 0 then None else c !! Z.to_nat i.

Definition wr (c : list Z) (i : Z) (x : Z) : list Z :=
  if i <? 0 then c else <[Z.to_nat i := x]> c.

(** ** The state of the sampling loops

    The variables of [boot] that the loops change, and [rng], the number of
    values already taken from the generator. *)

Record state : Type := mkState {
  c : list Z;     (* int c[n]: remaining count of each sample index *)
  N : Z;          (* int N: total of the remaining counts *)
  LOO : bool;     (* bool LOO *)
  r : Z;          (* int r *)
  m : Z;          (* int m *)
  rng : nat       (* draws taken from [dist (rng)] so far *)
}.

(** ** The random numbers

    The generator is its output: [draws t] is the [t]-th value of
    [dist (rng)], a number of [[0, 1)].  [k = dist (rng) * (N - m)] is the
    product truncated towards zero to an [int].  The product is taken
    exactly here; the single-precision product of the source rounds it, to
    a value that is again below [N - m] when [N - m] is positive, so every
    [k] the source can compute is one this model computes for some draw. *)

Definition Qtrunc (q : Q) : Z := Z.quot (Qnum q) (Zpos (Qden q)).

Definition scale (q : Q) (t : Z) : Z := Qtrunc (q * inject_Z t).

(** ** One pass of the row loop (the body of [for (int i ...)]) *)

(** Lines 69-75: leave-one-out on entry. *)
Definition loo_enter (u : bool) (s : state) : outcome state :=
  if u then
    match rd (c s) (r s) with
    | None => Undefined OutOfBounds
    | Some cr =>
        if negb (cr =? N s)
        then Ok (mkState (wr (c s) (r s) 0) (N s) true (r s) cr (rng s))
        else Ok s
    end
  else Ok s.

(** Line 76. *)
Definition draw_k (draws : nat -> Q) (s : state) : Z :=
  scale (draws (rng s)) (wrap_int (N s - m s)).

(** Lines 77-87: the walk along the cumulative sum.  When the pass for
    index [j] starts, [d] is [c[0] + ... + c[j]] and [rest] holds
    [c[j + 1], ..., c[n - 1]]; the else branch reads [c[j + 1]], the head
    of [rest], which is outside the array when [j = n - 1].  The result is
    the index at which the loop breaks. *)
Fixpoint walk (rest : list Z) (k d j : Z) : outcome Z :=
  if k <? d then Ok j
  else
    match rest with
    | x :: rest' => walk rest' k (wrap_int (d + x)) (j + 1)
    | [] => Undefined OutOfBounds
    end.

(** Lines 80-82: the assignment [bootsam (i, b) = j + 1] and the two
    decrements.  The value of the cell is returned. *)
Definition commit (s : state) (j : Z) : outcome (Z * state) :=
  match rd (c s) j with
  | None => Undefined OutOfBounds
  | Some cj =>
      Ok (j + 1,
          mkState (wr (c s) j (wrap_int (cj - 1))) (wrap_int (N s - 1))
                  (LOO s) (r s) (m s) (rng s))
  end.

(** Lines 88-92: leave-one-out on exit. *)
Definition loo_exit (s : state) : state :=
  if LOO s
  then mkState (wr (c s) (r s) (m s)) (N s) false (r s) 0 (rng s)
  else s.

Definition next_draw (s : state) : state :=
  mkState (c s) (N s) (LOO s) (r s) (m s) (S (rng s)).

(** Lines 76-92: the draw, the walk and what follows it. *)
Definition sample (draws : nat -> Q) (s1 : state) : outcome (Z * state) :=
  let k := draw_k draws s1 in
  let s2 := next_draw s1 in
  match c s2 with
  | [] => Undefined OutOfBounds
  | d :: rest =>
      j ← walk rest k d 0;
      '(v, s3) ← commit s2 j;
      Ok (v, loo_exit s3)
  end.

(** The body of the row loop. *)
Definition draw (draws : nat -> Q) (u : bool) (s : state)
  : outcome (Z * state) :=
  s1 ← loo_enter u s;
  sample draws s1.

(** ** The loops

    Each loop returns what it wrote to [bootsam], the state it leaves, and
    the states in which its passes of the row loop started, in order. *)

Fixpoint rows (draws : nat -> Q) (u : bool) (fuel : nat) (s : state)
  : outcome (list Z * state * list state) :=
  match fuel with
  | O => Ok ([], s, [])
  | S fuel' =>
      '(v, s1) ← draw draws u s;
      '(col, s2, log) ← rows draws u fuel' s1;
      Ok (v :: col, s2, s :: log)
  end.

(** Lines 65-67. *)
Definition set_r (u : bool) (n b : Z) (s : state) : outcome state :=
  if u then
    if n =? 0 then Undefined DivisionByZero
    else Ok (mkState (c s) (N s) (LOO s) (b - Z.quot b n * n) (m s) (rng s))
  else Ok s.

Fixpoint cols (draws : nat -> Q) (u : bool) (n : Z) (fuel : nat) (b : Z)
  (s : state) : outcome (list (list Z) * state * list state) :=
  match fuel with
  | O => Ok ([], s, [])
  | S fuel' =>
      s0 ← set_r u n b s;
      '(col, s1, log1) ← rows draws u (Z.to_nat n) s0;
      '(M, s2, log2) ← cols draws u n fuel' (b + 1) s1;
      Ok (col :: M, s2, log1 ++ log2)
  end.

(** ** The function

    [bootsam] is the list of its columns, each the list of its [n] cells. *)

Definition init (n nboot : Z) : state :=
  mkState (replicate (Z.to_nat n) nboot) (wrap_int (n * nboot)) false (-1) 0 0.

Definition boot_trace (args : list octave_value) (draws : nat -> Q)
  : outcome (list (list Z) * list state) :=
  match args with
  | [a0; a1; a2] =>
      let n := wrap_short (int_value a0) in
      let nboot := int_value a1 in
      let u := bool_value a2 in
      if (n <? 0) || (nboot <? 0) then Undefined NegativeLength
      else
        '(M, _, log) ← cols draws u n (Z.to_nat nboot) 0 (init n nboot);
        Ok (M, log)
  | _ => UsageError
  end.

Definition boot (args : list octave_value) (draws : nat -> Q)
  : outcome (list (list Z)) :=
  '(M, _) ← boot_trace args draws;
  Ok M.

(** ** Vocabulary of the statements *)

Definition sumZ (l : list Z) : Z := foldr Z.add 0 l.

Definition nonneg (l : list Z) : Prop := Forall (fun x => 0 <= x) l.

(** [occ v l]: how often [v] occurs in [l]. *)
Definition occ (v : Z) (l : list Z) : Z := Z.of_nat (count_occ Z.eq_dec l v).

(** [M] has [nboot] columns of [n] cells. *)
Definition matrix_of (n nboot : Z) (M : list (list Z)) : Prop :=
  Z.of_nat (length M) = nboot /\
  Forall (fun col => Z.of_nat (length col) = n) M.

(** The state in which a pass of the row loop starts: [c] has [n]
    counters, none negative, [N] is their total, and nothing is left over
    from a leave-one-out. *)
Definition inv (n : Z) (s : state) : Prop :=
  length (c s) = Z.to_nat n /\ nonneg (c s) /\ sumZ (c s) = N s /\
  N s <= INT_MAX /\ LOO s = false /\ m s = 0.

(** The state after [loo_enter]: the counters that take part in the draw
    total [N - m]. *)
Definition active (n : Z) (s1 : state) : Prop :=
  length (c s1) = Z.to_nat n /\ nonneg (c s1) /\ sumZ (c s1) = N s1 - m s1 /\
  0 <= m s1 /\ N s1 <= INT_MAX.

(** The state [commit] leaves when it decrements [c[j] = cj]. *)
Definition after (s1 : state) (j cj : Z) : state :=
  mkState (wr (c s1) j (cj - 1)) (N s1 - 1) (LOO s1) (r s1) (m s1) (S (rng s1)).

(** [s] starts a pass of the row loop in column [b]. *)
Definition visited (u : bool) (n b : Z) (s : state) : Prop :=
  inv n s /\ 0 < N s /\ b * n <= Z.of_nat (rng s) < (b + 1) * n /\
  (u = true -> r s = b mod n).


(** A generator that returns one half at every draw. *)
Definition half : nat -> Q := fun _ => (1 # 2)%Q.

(** A generator that alternates between one quarter and three quarters. *)
Definition quarters : nat -> Q :=
  fun t => if Nat.even t then (1 # 4)%Q else (3 # 4)%Q.


(** The cell of row [i] and column [b] of [bootsam]. *)
Definition cell (M : list (list Z)) (b i : nat) : option Z :=
  match M !! b with
  | Some col => col !! i
  | None => None
  end.

(** A run of the plain bootstrap: [boot (3, 2, false)]. *)
Definition plain_run : list (list Z) * list state :=
  Eval vm_compute in
    match boot_trace [ov_int 3; ov_int 2; ov_bool false] quarters with
    | Ok p => p
    | _ => ([], [])
    end.

End Boot.

(* ================================================================== *)
(** * Part II: smoothmedian.cpp *)
(* ================================================================== *)

Module SmoothMedian.

(** ** Outcomes *)

Inductive mexError : Type :=
| NoInput      (* "function requires at least 1 input argument" *)
| BadDim       (* "dim must be 1 (column-wise) or 2 (row-wise)" *)
| NotFinite.   (* "x cannot contain NaN or Inf" *)



Inductive result (A : Type) : Type :=
| Done (a : A)
| Raise (e : mexError)     (* mexErrMsgTxt: the call is abandoned *)
| Undefined.               (* a read outside a buffer, or a conversion
                              whose value does not fit *)

Arguments Done {A} a.
Arguments Raise {A} e.
Arguments Undefined {A}.

#[global] Instance result_bind : MBind result := fun A B f x =>
  match x with
  | Done a => f a
  | Raise e => Raise e
  | Undefined => Undefined
  end.

(** ** Arrays of the host *)

Record mxArray : Type := mkArray {
  sz0 : nat;            (* sz[0] *)
  sz1 : nat;            (* sz[1] *)
  pr : list float       (* the data, column-major *)
}.

Definition get (buf : list float) (i : nat) : result float :=
  match buf !! i with
  | Some v => Done v
  | None => Undefined
  end.

(** [*(mxGetPr (a))]: the first element. *)
Definition first_of (a : mxArray) : result float := get (pr a) 0.

(** Conversion of a [double] to [short int]: the fractional part is
    discarded; a value that does not fit has no defined result. *)
Definition to_short (f : float) : result Z :=
  match Prim2SF f with
  | S754_zero _ => Done 0%Z
  | S754_finite s mant e =>
      let z := Z.shiftl (Z.pos mant) e in
      let v := if s then (- z)%Z else z in
      if ((-32768 <=? v) && (v <=? 32767))%Z then Done v else Undefined
  | _ => Undefined
  end.

(** ** Sorting

    [std::sort] with [<].  It is specified for a strict weak order, which
    [<] is on data without NaN; there every implementation returns the
    ascending rearrangement, as this insertion sort does. *)

Fixpoint insert (x : float) (l : list float) : list float :=
  match l with
  | [] => [x]
  | y :: l' => if (x <? y)%float then x :: l else y :: insert x l'
  end.

Definition sort (l : list float) : list float := foldr insert [] l.

(** ** The derivatives (lines 166-185) *)

(** One pass of the loop over [i], for the pair [xi], [xj];
    [pow (v, 2)] is the product [v * v]. *)
Definition pair_terms (M xj : float) (TU : float * float) (xi : float)
  : float * float :=
  let '(T, U) := TU in
  let D := ((xi - M) * (xi - M) + (xj - M) * (xj - M))%float in
  let R := PrimFloat.sqrt D in
  if negb (D =? 0)%float
  then ((T + (2 * M - xi - xj) / R)%float,
        (U + (xi - xj) * (xi - xj) * R / (D * D))%float)
  else (T, U).

(** The loop over [j]; [before] holds [xvec[0 .. j-1]]. *)
Fixpoint derivatives (before rest : list float) (M : float) (TU : float * float)
  : result (float * float) :=
  match rest with
  | [] => Done TU
  | xj :: rest' =>
      if negb (is_finite xj) then Raise NotFinite
      else derivatives (before ++ [xj]) rest' M
             (fold_left (pair_terms M xj) before TU)
  end.

(** ** The iterations (lines 157-218) *)

Definition MaxIter : nat := 19.

(** The variables the loop changes. *)
Record bracket : Type := mkBracket {
  a : float;
  b : float;
  range : float;
  M : float       (* M[k] *)
}.

(** What one pass of the loop body does: it breaks at the range test, or
    breaks at the step test, or goes on with new values. *)
Inductive verdict : Type :=
| RangeMet
| StepMet
| Next (st : bracket).

Definition body (xvec : list float) (Tol : float) (st : bracket)
  : result verdict :=
  if (range st <=? Tol)%float then Done RangeMet
  else
    '(T, U) ← derivatives [] xvec (M st) (0, 0)%float;
    let step := (T / U)%float in
    if (abs step <? Tol)%float then Done StepMet
    else
      let a' := if (step <? 0)%float then M st else a st in
      let b' := if (step <? 0)%float then b st
                else if (0 <? step)%float then M st else b st in
      let nwt := (M st - step)%float in
      let M' := if (a' <? nwt)%float && (nwt <? b')%float then nwt
                else (0.5 * (a' + b'))%float in
      Done (Next (mkBracket a' b' (b' - a')%float M')).

(** How the loop ended. *)
Inductive stop : Type := ByRange | ByStep | Exhausted.

(** What one row or column produced: the estimate left in [M[k]], whether
    the warning was printed, how the loop ended, how many times its body
    was entered and how many times the derivatives were computed. *)
Record run : Type := mkRun {
  estimate : float;
  warned : bool;
  stopped : stop;
  entered : nat;
  passes : nat
}.

Definition add_pass (w : bool) (rn : run) : run :=
  mkRun (estimate rn) (w || warned rn) (stopped rn)
        (S (entered rn)) (S (passes rn)).

(** The loop [for (int Iter = 0; Iter <= MaxIter; Iter++)]; [fuel] is the
    number of values [Iter] has yet to take.  The warning is printed at
    the end of a pass that did not break and has [Iter == MaxIter]. *)
Fixpoint iterate (fuel : nat) (Iter : nat) (xvec : list float) (Tol : float)
  (st : bracket) : result run :=
  match fuel with
  | O => Done (mkRun (M st) false Exhausted 0 0)
  | S fuel' =>
      v ← body xvec Tol st;
      match v with
      | RangeMet => Done (mkRun (M st) false ByRange 1 0)
      | StepMet => Done (mkRun (M st) false ByStep 1 1)
      | Next st' =>
          rn ← iterate fuel' (S Iter) xvec Tol st';
          Done (add_pass (Iter =? MaxIter)%nat rn)
      end
  end.

(** ** One row or column (lines 137-218)

    [float mid = 0.5 * m] is exact for every [m] below [2^24], so
    [int (mid)] is [m / 2] and [mid == int (mid)] says that [m] is even. *)

Definition seed (xvec : list float) : result float :=
  let m := length xvec in
  M0 ← get xvec (m / 2);
  if Nat.even m
  then lo ← (match (m / 2)%nat with O => Undefined | S i => get xvec i end);
       Done ((M0 + lo) * 0.5)%float
  else Done M0.

Definition start (xvec : list float) : result bracket :=
  M0 ← seed xvec;
  a0 ← get xvec 0;
  b0 ← (match length xvec with O => Undefined | S i => get xvec i end);
  Done (mkBracket a0 b0 (b0 - a0)%float M0).

(** [Tol] when the caller gave none: [range * 1e-4]. *)
Definition default_Tol (range : float) : float :=
  (range * 0x1.a36e2eb1c432dp-14)%float.

Definition smooth (xs : list float) (Tol : option float) : result run :=
  let xvec := sort xs in
  st ← start xvec;
  let tol := match Tol with
             | Some t => t
             | None => default_Tol (range st)
             end in
  iterate (S MaxIter) 0 xvec tol st.

(** ** The function *)

(** Lines 132-136: the [k]-th column ([dim = 1]) or row ([dim = 2]),
    pushed onto [xvec] for [j] in [js]. *)
Fixpoint push_back (x : list float) (dim : Z) (m n k : nat) (js : list nat)
  : result (list float) :=
  match js with
  | [] => Done []
  | j :: js' =>
      v ← get x (if (dim =? 1)%Z then k * m + j else j * n + k)%nat;
      vs ← push_back x dim m n k js';
      Done (v :: vs)
  end.

Definition gather (x : list float) (dim : Z) (m n k : nat)
  : result (list float) :=
  push_back x dim m n k (seq 0 m).

(** The loop over [k]. *)
Fixpoint vectors (x : list float) (dim : Z) (m n : nat) (Tol : option float)
  (ks : list nat) : result (list run) :=
  match ks with
  | [] => Done []
  | k :: ks' =>
      xs ← gather x dim m n k;
      rn ← smooth xs Tol;
      rns ← vectors x dim m n Tol ks';
      Done (rn :: rns)
  end.

(** Lines 88-93: the requested [dim]. *)
Definition requested_dim (opt : list mxArray) : result Z :=
  match opt with
  | [] => Done 1%Z
  | d :: _ => f ← first_of d; to_short f
  end.

(** Lines 97-100. *)
Definition requested_Tol (opt : list mxArray) : result (option float) :=
  match opt with
  | _ :: t :: _ => f ← first_of t; Done (Some f)
  | _ => Done None
  end.

(** Lines 109-117: the length [m] of a vector and the number [n] of
    vectors. *)
Definition extent (x : mxArray) (dim : Z) : nat * nat :=
  if (dim =? 1)%Z then (sz0 x, sz1 x) else (sz1 x, sz0 x).

(** The call, with what each row or column produced: the [dim] in force,
    the number [n] of vectors, and their runs. *)
Definition mexFunction_trace (prhs : list mxArray)
  : result (Z * nat * list run) :=
  match prhs with
  | [] => Raise NoInput
  | x :: opt =>
      dim ← requested_dim opt;
      if negb (dim =? 1)%Z && negb (dim =? 2)%Z then Raise BadDim
      else
        Tol ← requested_Tol opt;
        let dim := if (sz0 x =? 1)%nat then 2%Z else dim in
        let '(m, n) := extent x dim in
        rns ← vectors (pr x) dim m n Tol (seq 0 n);
        Done (dim, n, rns)
  end.

(** The vector numbers [k + 1] of the warnings printed. *)
Fixpoint warnings (k : nat) (rns : list run) : list nat :=
  match rns with
  | [] => []
  | rn :: rns' => (if warned rn then [S k] else []) ++ warnings (S k) rns'
  end.

(** [plhs[0]]: [1 x n] for [dim = 1], [n x 1] for [dim = 2]. *)
Definition plhs0 (dim : Z) (n : nat) (rns : list run) : mxArray :=
  if (dim =? 1)%Z then mkArray 1 n (map estimate rns)
  else mkArray n 1 (map estimate rns).

(** The result and the warnings printed. *)
Definition mexFunction (prhs : list mxArray) : result (mxArray * list nat) :=
  '(dim, n, rns) ← mexFunction_trace prhs;
  Done (plhs0 dim n rns, warnings 0 rns).

(** ** Vocabulary of the statements *)

(** [k] passes of the loop body from [st], none of which breaks. *)
Fixpoint advance (xvec : list float) (Tol : float) (k : nat) (st : bracket)
  : result (option bracket) :=
  match k with
  | O => Done (Some st)
  | S k' =>
      v ← body xvec Tol st;
      match v with
      | Next st' => advance xvec Tol k' st'
      | _ => Done None
      end
  end.

(** A row vector, a column vector and a scalar. *)
Definition rowv (l : list float) : mxArray := mkArray 1 (length l) l.
Definition colv (l : list float) : mxArray := mkArray (length l) 1 l.
Definition scalar (f : float) : mxArray := mkArray 1 1 [f].

(** The requested [dim] passes the test of line 94. *)
Definition valid_dim (opt : list mxArray) : Prop :=
  requested_dim opt = Done 1%Z \/ requested_dim opt = Done 2%Z.

(** [x] holds [sz[0] * sz[1]] values, none missing, and is not empty. *)
Definition well_formed (x : mxArray) : Prop :=
  length (pr x) = (sz0 x * sz1 x)%nat /\ (0 < sz0 x)%nat /\ (0 < sz1 x)%nat.

Definition finite (v : float) : Prop := is_finite v = true.

(** The arguments with [dim] replaced by 2. *)
Definition with_dim2 (opt : list mxArray) : list mxArray :=
  scalar 2 :: tl opt.

(** A call whose loop runs out: [smoothmedian ([1 2 4], 2, 0)]. *)
Definition slow_x : mxArray := rowv [1; 2; 4]%float.
Definition slow_opt : list mxArray := [scalar 2; scalar 0].
Definition slow_runs : list run :=
  Eval vm_compute in
    match mexFunction_trace (slow_x :: slow_opt) with
    | Done (_, _, rns) => rns
    | _ => []
    end.

(** Its bracket before the first pass and after it. *)
Definition slow_start : bracket := mkBracket 1 4 3 2.
Definition slow_next : bracket :=
  Eval vm_compute in
    match body (pr slow_x) 0 slow_start with
    | Done (Next st') => st'
    | _ => slow_start
    end.

(** A value that is not NaN, the order [<=] of the source on such values,
    and a value within two bounds. *)
Definition number (v : float) : Prop := is_nan v = false.
Definition fle (p q : float) : Prop := (p <=? q)%float = true.
Definition between (lo v hi : float) : Prop := fle lo v /\ fle v hi.

(** The place of a value that is not NaN in the order of the numbers:
    the infinities at the ends, the negative numbers by decreasing
    exponent and mantissa, the zeros together, the positive numbers by
    increasing exponent and mantissa. *)
Definition key (f : spec_float) : Z * Z * Z :=
  match f with
  | S754_infinity true => (-2, 0, 0)
  | S754_finite true m e => (-1, - e, - Z.pos m)
  | S754_finite false m e => (1, e, Z.pos m)
  | S754_infinity false => (2, 0, 0)
  | _ => (0, 0, 0)
  end%Z.

Definition lex (k1 k2 : Z * Z * Z) : comparison :=
  let '(c1, e1, m1) := k1 in
  let '(c2, e2, m2) := k2 in
  match (c1 ?= c2)%Z with
  | Eq => match (e1 ?= e2)%Z with
          | Eq => (m1 ?= m2)%Z
          | o => o
          end
  | o => o
  end.

(** Some [p <= q] within [[lo, hi]] have a computed mean
    [0.5 * (p + q)] that is not within [[p, q]]. *)
Definition mean_escapes (lo hi : float) : Prop :=
  exists p q, between lo p hi /\ between lo q hi /\ fle p q /\
              ~ between p (0.5 * (p + q))%float q.

(** The bracket lies within [[lo, hi]] and holds the estimate. *)
Definition bracketed (lo hi : float) (st : bracket) : Prop :=
  fle lo (a st) /\ between (a st) (M st) (b st) /\ fle (b st) hi.

(** The run of [slow_x] with tolerance 0. *)
Definition slow_run : run :=
  Eval vm_compute in
    match smooth (pr slow_x) (Some 0%float) with
    | Done rn => rn
    | _ => mkRun 0 false Exhausted 0 0
    end.

(** The transposed array: arrays are stored by columns, the element of
    row [i] and column [j] of [x] at index [j * sz[0] + i]. *)
Definition transpose (x : mxArray) : mxArray :=
  mkArray (sz1 x) (sz0 x)
    (map (fun t => nth ((t mod sz1 x) * sz0 x + t / sz1 x) (pr x) 0%float)
         (seq 0 (sz0 x * sz1 x))).

(** The estimates and the warnings of a call. *)
Definition values_of (r : result (mxArray * list nat))
  : result (list float * list nat) :=
  '(out, ws) ← r; Done (pr out, ws).

Definition two_by_three : mxArray := mkArray 2 3 [1; 2; 3; 4; 5; 7]%float.

End SmoothMedian.

(* ================================================================== *)
(** * Part III: properties of boot.cc *)
(* ================================================================== *)

Module BootFacts.
Import Boot.
Local Open Scope Z_scope.

(** ** Machine integers, the draw, the counter array *)

Lemma wrap_int_id z : INT_MIN <= z <= INT_MAX -> wrap_int z = z.
Proof.
  unfold INT_MIN, INT_MAX, wrap_int. intros H.
  rewrite Z.mod_small; lia.
Qed.

Lemma Qtrunc_range (q : Q) (t : Z) :
  (0 <= q)%Q -> (q < 1)%Q -> 0 < t -> 0 <= scale q t < t.
Proof.
  destruct q as [a d]. unfold Qle, Qlt, scale, Qtrunc. simpl.
  intros Ha Hd Ht.
  rewrite Z.mul_1_r in Ha, Hd. rewrite Pos.mul_1_r.
  assert (0 <= a < Z.pos d) by lia.
  split.
  - apply Z.quot_pos; nia.
  - apply Z.quot_lt_upper_bound; nia.
Qed.

Lemma rd_nat c i : 0 <= i -> rd c i = c !! Z.to_nat i.
Proof. intros. unfold rd. destruct (Z.ltb_spec i 0); [lia|done]. Qed.

Lemma wr_nat c i x : 0 <= i -> wr c i x = <[Z.to_nat i := x]> c.
Proof. intros. unfold wr. destruct (Z.ltb_spec i 0); [lia|done]. Qed.

Lemma rd_Some_range c i x : rd c i = Some x -> 0 <= i < Z.of_nat (length c).
Proof.
  unfold rd. destruct (Z.ltb_spec i 0) as [|Hi]; [done|].
  intros Hl%lookup_lt_Some. lia.
Qed.

Lemma sumZ_app l1 l2 : sumZ (l1 ++ l2) = sumZ l1 + sumZ l2.
Proof. induction l1; simpl; lia. Qed.

Lemma sumZ_insert (l : list Z) i x y :
  l !! i = Some y -> sumZ (<[i:=x]> l) = sumZ l - y + x.
Proof.
  revert i. induction l as [|a l IH]; intros [|i]; simpl; try done.
  - intros [= ->]. lia.
  - intros H. rewrite (IH _ H). lia.
Qed.

Lemma sumZ_nonneg l : Forall (fun x => 0 <= x) l -> 0 <= sumZ l.
Proof. induction 1; simpl; lia. Qed.

Lemma sumZ_take_le (l : list Z) i :
  Forall (fun x => 0 <= x) l -> 0 <= sumZ (take i l) <= sumZ l.
Proof.
  intros H. rewrite <- (take_drop i l) at 3. rewrite sumZ_app.
  assert (0 <= sumZ (take i l)) by (apply sumZ_nonneg; by apply Forall_take).
  assert (0 <= sumZ (drop i l)) by (apply sumZ_nonneg; by apply Forall_drop).
  lia.
Qed.

Lemma sumZ_take_S (l : list Z) i x :
  l !! i = Some x -> sumZ (take (S i) l) = sumZ (take i l) + x.
Proof.
  intros H. rewrite (take_S_r _ _ _ H), sumZ_app. simpl. lia.
Qed.

Lemma lookup_le_sumZ (l : list Z) i x :
  Forall (fun x => 0 <= x) l -> l !! i = Some x -> x <= sumZ l.
Proof.
  intros Hl H. pose proof (sumZ_take_le l (S i) Hl) as H1.
  pose proof (sumZ_take_le l i Hl) as H2.
  rewrite (sumZ_take_S _ _ _ H) in H1. lia.
Qed.

Lemma walk_finds (cs : list Z) (k : Z) :
  Forall (fun x => 0 <= x) cs -> sumZ cs <= INT_MAX ->
  forall (rest : list Z) (j : nat) (d : Z),
    rest = drop (S j) cs -> (j < length cs)%nat ->
    d = sumZ (take (S j) cs) -> sumZ (take j cs) <= k -> k < sumZ cs ->
    exists j' : nat,
      walk rest k d (Z.of_nat j) = Ok (Z.of_nat j') /\
      (j <= j' < length cs)%nat /\
      sumZ (take j' cs) <= k < sumZ (take (S j') cs).
Proof.
  intros Hpos Hmax. induction rest as [|x rest IH]; intros j d Hrest Hlen Hd Hlo Hhi;
    simpl; destruct (Z.ltb_spec k d) as [Hk|Hk];
    try (exists j; split; [done|]; split; [lia|]; subst d; lia).
  { assert (length (drop (S j) cs) = 0%nat) as Hl by (by rewrite <- Hrest).
    rewrite length_drop in Hl. rewrite take_ge in Hd by lia. lia. }
  assert (cs !! S j = Some x) as Hx.
  { rewrite <- (Nat.add_0_r (S j)), <- lookup_drop, <- Hrest. done. }
  pose proof (sumZ_take_S _ _ _ Hx) as HS.
  pose proof (sumZ_take_le cs (S (S j)) Hpos) as Hle.
  pose proof (sumZ_take_le cs (S j) Hpos) as Hle'.
  rewrite wrap_int_id by (unfold INT_MIN, INT_MAX in *; lia).
  replace (Z.of_nat j + 1) with (Z.of_nat (S j)) by lia.
  destruct (IH (S j) (d + x)) as (j' & Hw & Hr & Hs); try lia.
  { rewrite (drop_S _ _ _ Hx) in Hrest. by injection Hrest. }
  { by eapply lookup_lt_Some. }
  exists j'. split; [done|]. split; [lia|done].
Qed.

Lemma pick_spec (cs : list Z) (k : Z) :
  nonneg cs -> sumZ cs <= INT_MAX -> 0 <= k < sumZ cs ->
  exists d rest j cj,
    cs = d :: rest /\ walk rest k d 0 = Ok j /\
    0 <= j < Z.of_nat (length cs) /\ rd cs j = Some cj /\ 0 < cj.
Proof.
  intros Hpos Hmax Hk.
  destruct cs as [|d rest]; [simpl in Hk; lia|].
  destruct (walk_finds (d :: rest) k Hpos Hmax rest 0%nat d) as (j & Hw & Hj & Hs).
  { done. }
  { simpl. lia. }
  { unfold sumZ. simpl. lia. }
  { simpl. lia. }
  { lia. }
  destruct (lookup_lt_is_Some_2 (d :: rest) j (proj2 Hj)) as [cj Hcj].
  exists d, rest, (Z.of_nat j), cj.
  rewrite !rd_nat by lia. rewrite Nat2Z.id. simpl in Hw.
  split_and!; try done; try lia.
  rewrite (sumZ_take_S _ _ _ Hcj) in Hs. lia.
Qed.

Lemma sample_spec draws n s1 :
  active n s1 -> 0 < N s1 - m s1 ->
  (0 <= draws (rng s1))%Q -> (draws (rng s1) < 1)%Q ->
  exists d rest j cj,
    c s1 = d :: rest /\
    0 <= draw_k draws s1 < sumZ (c s1) /\
    walk rest (draw_k draws s1) d 0 = Ok j /\
    0 <= j < n /\ rd (c s1) j = Some cj /\ 0 < cj /\
    commit (next_draw s1) j = Ok (j + 1, after s1 j cj) /\
    sample draws s1 = Ok (j + 1, loo_exit (after s1 j cj)).
Proof.
  intros (Hlen & Hpos & Hsum & Hm & Hmax) HN Hq0 Hq1.
  assert (draw_k draws s1 = scale (draws (rng s1)) (N s1 - m s1)) as Hk.
  { unfold draw_k. rewrite wrap_int_id by (unfold INT_MIN, INT_MAX in *; lia). done. }
  pose proof (Qtrunc_range _ _ Hq0 Hq1 HN) as Hrange. rewrite <- Hk in Hrange.
  destruct (pick_spec (c s1) (draw_k draws s1))
    as (d & rest & j & cj & Hd & Hw & Hj & Hcj & Hc); try done; try lia.
  assert (cj <= sumZ (c s1)).
  { rewrite rd_nat in Hcj by lia. by eapply lookup_le_sumZ. }
  assert (commit (next_draw s1) j = Ok (j + 1, after s1 j cj)) as Hcommit.
  { unfold commit, after. simpl. rewrite Hcj.
    rewrite !wrap_int_id by (unfold INT_MIN, INT_MAX in *; lia). done. }
  exists d, rest, j, cj. split_and!; try done; try lia.
  unfold sample. cbn [next_draw c]. rewrite Hd. rewrite Hw. simpl.
  simpl in Hcommit. rewrite Hcommit. done.
Qed.

Lemma loo_enter_plain u s :
  u = false \/ rd (c s) (r s) = Some (N s) -> loo_enter u s = Ok s.
Proof.
  intros [->|H]; [done|]. unfold loo_enter. destruct u; [|done].
  rewrite H, Z.eqb_refl. done.
Qed.

Lemma loo_enter_zero s cr :
  rd (c s) (r s) = Some cr -> cr <> N s ->
  loo_enter true s = Ok (mkState (wr (c s) (r s) 0) (N s) true (r s) cr (rng s)).
Proof.
  intros H Hne. unfold loo_enter. rewrite H.
  destruct (Z.eqb_spec cr (N s)); done.
Qed.

Lemma draw_spec draws u n s :
  0 < n -> inv n s -> 0 < N s -> (u = true -> 0 <= r s < n) ->
  (0 <= draws (rng s))%Q -> (draws (rng s) < 1)%Q ->
  exists s1 d rest j cj,
    loo_enter u s = Ok s1 /\ active n s1 /\ N s1 = N s /\
    (LOO s1 = true -> j <> r s) /\
    c s1 = d :: rest /\
    0 <= draw_k draws s1 < sumZ (c s1) /\
    walk rest (draw_k draws s1) d 0 = Ok j /\
    0 <= j < n /\ rd (c s) j = Some cj /\ rd (c s1) j = Some cj /\ 0 < cj /\
    commit (next_draw s1) j = Ok (j + 1, after s1 j cj) /\
    loo_exit (after s1 j cj) =
      mkState (wr (c s) j (cj - 1)) (N s - 1) false (r s) 0 (S (rng s)) /\
    draw draws u s = Ok (j + 1, loo_exit (after s1 j cj)).
Proof.
  intros Hn Hinv HN Hr Hq0 Hq1.
  pose proof Hinv as (Hlen & Hpos & Hsum & Hmax & HLOO & Hm).
  assert (u = false \/ rd (c s) (r s) = Some (N s) \/
          exists cr, u = true /\ rd (c s) (r s) = Some cr /\ cr <> N s) as Hcase.
  { destruct u; [|by left]. right. specialize (Hr eq_refl).
    assert (Z.to_nat (r s) < length (c s))%nat as Hrl by lia.
    destruct (lookup_lt_is_Some_2 _ _ Hrl) as [cr Hcr].
    rewrite rd_nat by lia. rewrite Hcr.
    destruct (Z.eq_dec cr (N s)) as [->|]; [by left|right]. by exists cr. }
  destruct Hcase as [Hu|[Hu|(cr & -> & Hcr & Hne)]].
  - (* no leave-one-out *)
    assert (loo_enter u s = Ok s) as He by (eapply loo_enter_plain; eauto).
    assert (active n s) as Hact by (unfold active; rewrite Hm; repeat split; try done; lia).
    destruct (sample_spec draws n s Hact) as (d & rest & j & cj & Hd & Hk & Hw & Hj & Hcj & Hc & Hco & Hs);
      try done; try lia.
    exists s, d, rest, j, cj. unfold draw. rewrite He. simpl.
    split_and!; try done; try lia; try apply Hk.
    { rewrite HLOO. done. }
    unfold loo_exit, after. simpl. rewrite HLOO, Hm. done.
  - assert (loo_enter u s = Ok s) as He by (eapply loo_enter_plain; eauto).
    assert (active n s) as Hact by (unfold active; rewrite Hm; repeat split; try done; lia).
    destruct (sample_spec draws n s Hact) as (d & rest & j & cj & Hd & Hk & Hw & Hj & Hcj & Hc & Hco & Hs);
      try done; try lia.
    exists s, d, rest, j, cj. unfold draw. rewrite He. simpl.
    split_and!; try done; try lia; try apply Hk.
    { rewrite HLOO. done. }
    unfold loo_exit, after. simpl. rewrite HLOO, Hm. done.
  - (* leave-one-out *)
    specialize (Hr eq_refl).
    pose proof (loo_enter_zero s cr Hcr Hne) as He.
    set (s1 := mkState (wr (c s) (r s) 0) (N s) true (r s) cr (rng s)) in *.
    assert (c s !! Z.to_nat (r s) = Some cr) as Hcr' by (rewrite rd_nat in Hcr by lia; done).
    pose proof (lookup_le_sumZ _ _ _ Hpos Hcr') as Hle.
    assert (0 <= cr) as Hcr0 by (by eapply (Forall_lookup_1 _ _ _ _ Hpos)).
    assert (active n s1) as Hact.
    { unfold active, s1. simpl. rewrite wr_nat by lia.
      rewrite length_insert, (sumZ_insert _ _ _ _ Hcr').
      split_and!; try done; try lia; try apply Hk.
      apply Forall_insert; [done|lia]. }
    destruct (sample_spec draws n s1 Hact) as (d & rest & j & cj & Hd & Hk & Hw & Hj & Hcj & Hc & Hco & Hs);
      try done; try (simpl; lia).
    assert (j <> r s) as Hjr.
    { intros ->. unfold s1 in Hcj. simpl in Hcj. rewrite rd_nat, wr_nat in Hcj by lia.
      rewrite list_lookup_insert_eq in Hcj by lia. injection Hcj as <-. lia. }
    assert (Z.to_nat (r s) <> Z.to_nat j) as Hjr' by lia.
    assert (rd (c s) j = Some cj) as Hcj'.
    { unfold s1 in Hcj. simpl in Hcj. rewrite rd_nat, wr_nat in Hcj by lia.
      rewrite list_lookup_insert_ne in Hcj by done. rewrite rd_nat by lia. done. }
    exists s1, d, rest, j, cj. unfold draw. rewrite He. simpl.
    split_and!; try done; try lia; try apply Hk.
    unfold loo_exit, after, s1. simpl. rewrite !wr_nat by lia.
    f_equal.
    rewrite list_insert_insert_ne by done.
    rewrite list_insert_insert_eq.
    rewrite (list_insert_id (c s) _ _ Hcr'). done.
Qed.

Lemma occ_cons v x l : occ v (x :: l) = (if Z.eq_dec x v then 1 else 0) + occ v l.
Proof. unfold occ. simpl. destruct (Z.eq_dec x v); lia. Qed.

Lemma occ_app v l1 l2 : occ v (l1 ++ l2) = occ v l1 + occ v l2.
Proof. unfold occ. rewrite count_occ_app. lia. Qed.

Lemma inv_after_draw n s j cj :
  inv n s -> 0 <= j -> rd (c s) j = Some cj -> 0 < cj ->
  inv n (mkState (wr (c s) j (cj - 1)) (N s - 1) false (r s) 0 (S (rng s))).
Proof.
  intros (Hlen & Hpos & Hsum & Hmax & HLOO & Hm) Hj Hcj Hc.
  rewrite rd_nat in Hcj by done.
  unfold inv. simpl. rewrite wr_nat by done.
  rewrite length_insert, (sumZ_insert _ _ _ _ Hcj).
  split_and!; try done; try lia.
  apply Forall_insert; [done|lia].
Qed.

Section Run.
Variables (draws : nat -> Q) (u : bool) (n : Z).
Hypothesis Hn : 0 < n.
Hypothesis Hdraws : forall t, (0 <= draws t)%Q /\ (draws t < 1)%Q.

Lemma rows_spec (b : Z) : forall (fuel : nat) (s : state),
  inv n s -> Z.of_nat fuel <= N s ->
  b * n <= Z.of_nat (rng s) -> Z.of_nat (rng s) + Z.of_nat fuel <= (b + 1) * n ->
  (u = true -> r s = b mod n) ->
  exists col s' log,
    rows draws u fuel s = Ok (col, s', log) /\
    inv n s' /\ N s' = N s - Z.of_nat fuel /\ r s' = r s /\
    rng s' = (rng s + fuel)%nat /\
    length col = fuel /\ length log = fuel /\
    Forall (fun v => 1 <= v <= n) col /\
    (forall j x, rd (c s) j = Some x -> rd (c s') j = Some (x - occ (j + 1) col)) /\
    (forall (i : nat) (si : state), log !! i = Some si ->
       visited u n b si /\ rng si = (rng s + i)%nat /\ N si = N s - Z.of_nat i).
Proof.
  induction fuel as [|fuel IH]; intros s Hinv HN Hlo Hhi Hr.
  { exists [], s, []. simpl. split_and!; try done; try lia.
    intros j x Hx. rewrite Hx. f_equal. unfold occ. simpl. lia. }
  assert (0 <= b mod n < n) as Hmod by (apply Z.mod_pos_bound; lia).
  destruct (draw_spec draws u n s Hn Hinv) as
    (s1 & d & rest & j & cj & He & Hact & HN1 & Hjr & Hd & Hk & Hw & Hj & Hcj & Hcj1 & Hc & Hco & Hex & Hdraw);
    try apply Hdraws; try lia.
  { intros Hu. rewrite (Hr Hu). done. }
  pose proof (inv_after_draw n s j cj Hinv (proj1 Hj) Hcj Hc) as Hinv'.
  rewrite Hex in Hdraw.
  set (s2 := mkState (wr (c s) j (cj - 1)) (N s - 1) false (r s) 0 (S (rng s))) in *.
  destruct (IH s2 Hinv') as (col & s' & log & Hrows & Hi' & HN' & Hr' & Hrng & Hlc & Hll & Hcol & Hcnt & Hlog);
    try (simpl; lia); try done.
  exists (j + 1 :: col), s', (s :: log).
  simpl. rewrite Hdraw. simpl. rewrite Hrows. simpl.
  split_and!; try done; try (simpl in *; lia).
  - constructor; [lia|done].
  - intros j0 x Hx. rewrite occ_cons.
    pose proof (rd_Some_range _ _ _ Hx) as Hj0.
    destruct (Z.eq_dec (j + 1) (j0 + 1)) as [Heq|Hne].
    + assert (j0 = j) as -> by lia. rewrite Hx in Hcj. injection Hcj as ->.
      rewrite (Hcnt j (cj - 1)); [f_equal; lia|].
      unfold s2. simpl. rewrite rd_nat, wr_nat by lia.
      apply list_lookup_insert_eq. lia.
    + rewrite (Hcnt j0 x); [f_equal; lia|].
      unfold s2. simpl. rewrite rd_nat, wr_nat by lia.
      rewrite list_lookup_insert_ne by lia. rewrite rd_nat in Hx by lia. done.
  - intros [|i] si Hi.
    + injection Hi as <-. unfold visited. split_and!; try done; lia.
    + destruct (Hlog i si Hi) as (Hv & Hrg & HNi). unfold s2 in Hrg, HNi.
      simpl in Hrg, HNi. split_and!; try done; lia.
Qed.

Lemma set_r_spec b s :
  0 <= b -> inv n s ->
  exists s0, set_r u n b s = Ok s0 /\ inv n s0 /\ N s0 = N s /\ c s0 = c s /\
    rng s0 = rng s /\ (u = true -> r s0 = b mod n).
Proof.
  intros Hb Hinv. unfold set_r. destruct u.
  - destruct (Z.eqb_spec n 0) as [|_]; [lia|].
    eexists. split; [done|]. simpl. split_and!; try done.
    intros _. rewrite <- Z.rem_mod_nonneg by lia.
    pose proof (Z.quot_rem' b n). lia.
  - exists s. split_and!; done.
Qed.

Lemma cols_spec : forall (fuel : nat) (b : Z) (s : state),
  inv n s -> 0 <= b -> n * Z.of_nat fuel <= N s -> Z.of_nat (rng s) = b * n ->
  exists M s' log,
    cols draws u n fuel b s = Ok (M, s', log) /\
    inv n s' /\ N s' = N s - n * Z.of_nat fuel /\
    length M = fuel /\ Forall (fun col => length col = Z.to_nat n) M /\
    length log = (fuel * Z.to_nat n)%nat /\
    Forall (fun v => 1 <= v <= n) (concat M) /\
    (forall j x, rd (c s) j = Some x ->
                 rd (c s') j = Some (x - occ (j + 1) (concat M))) /\
    (forall (i : nat) (si : state), log !! i = Some si ->
       rng si = (rng s + i)%nat /\ N si = N s - Z.of_nat i /\
       exists b', b <= b' < b + Z.of_nat fuel /\ visited u n b' si).
Proof.
  induction fuel as [|fuel IH]; intros b s Hinv Hb HN Hrng.
  { exists [], s, []. simpl. split_and!; try done; try lia.
    intros j x Hx. rewrite Hx. f_equal. unfold occ. simpl. lia. }
  destruct (set_r_spec b s Hb Hinv) as (s0 & Hset & Hinv0 & HN0 & Hc0 & Hrng0 & Hr0).
  destruct (rows_spec b (Z.to_nat n) s0 Hinv0) as
    (col & s1 & log1 & Hrows & Hinv1 & HN1 & Hr1 & Hrng1 & Hlc & Hll & Hcol & Hcnt1 & Hlog1);
    try lia; try done.
  destruct (IH (b + 1) s1 Hinv1) as
    (M & s2 & log2 & Hcols & Hinv2 & HN2 & HlM & HM & Hll2 & Hent & Hcnt2 & Hlog2);
    try lia.
  exists (col :: M), s2, (log1 ++ log2).
  simpl. rewrite Hset. simpl. rewrite Hrows. simpl. rewrite Hcols. simpl.
  split_and!; try done; try lia.
  - constructor; done.
  - rewrite length_app. lia.
  - apply Forall_app. done.
  - intros j x Hx. rewrite occ_app. rewrite <- Hc0 in Hx.
    rewrite (Hcnt2 j _ (Hcnt1 j x Hx)). f_equal. lia.
  - intros i si Hi. apply lookup_app_Some in Hi as [Hi|[Hge Hi]].
    + destruct (Hlog1 i si Hi) as (Hv & Hrg & HNi).
      split_and!; [lia|lia|]. exists b. split; [lia|done].
    + destruct (Hlog2 _ si Hi) as (Hrg & HNi & b' & Hb' & Hv).
      split_and!; [lia|lia|]. exists b'. split; [lia|done].
Qed.
End Run.

Lemma sumZ_replicate k x : sumZ (replicate k x) = Z.of_nat k * x.
Proof. induction k as [|k IH]; [done|]. cbn [replicate sumZ foldr] in *. unfold sumZ in IH. lia. Qed.

Lemma wrap_short_id z : -32768 <= z <= SHRT_MAX -> wrap_short z = z.
Proof. unfold SHRT_MAX, wrap_short. intros H. rewrite Z.mod_small; lia. Qed.

Lemma init_inv n nboot :
  0 <= n -> 0 <= nboot -> n * nboot <= INT_MAX ->
  inv n (init n nboot) /\ N (init n nboot) = n * nboot /\ rng (init n nboot) = 0%nat.
Proof.
  intros Hn Hb Hmax. unfold inv, init. simpl.
  rewrite wrap_int_id by (unfold INT_MIN, INT_MAX in *; lia).
  rewrite length_replicate, sumZ_replicate.
  split_and!; try done; try lia.
  apply Forall_replicate. lia.
Qed.

Theorem boot_trace_spec (n nboot : Z) (u : bool) (draws : nat -> Q) :
  0 < n <= SHRT_MAX -> 0 < nboot -> n * nboot <= INT_MAX ->
  (forall t, (0 <= draws t)%Q /\ (draws t < 1)%Q) ->
  exists M log,
    boot_trace [ov_int n; ov_int nboot; ov_bool u] draws = Ok (M, log) /\
    matrix_of n nboot M /\
    Forall (fun v => 1 <= v <= n) (concat M) /\
    (forall v, 1 <= v <= n -> occ v (concat M) = nboot) /\
    Z.of_nat (length log) = n * nboot /\
    (forall (t : nat) (s : state), log !! t = Some s ->
       rng s = t /\ N s = n * nboot - Z.of_nat t /\
       exists b, 0 <= b < nboot /\ visited u n b s).
Proof.
  intros Hn Hb Hmax Hdraws.
  destruct (init_inv n nboot) as (Hinv & HN & Hrng); try lia.
  destruct (cols_spec draws u n (proj1 Hn) Hdraws (Z.to_nat nboot) 0 (init n nboot) Hinv)
    as (M & s' & log & Hcols & Hinv' & HN' & HlM & HM & Hll & Hent & Hcnt & Hlog);
    try lia.
  exists M, log. unfold boot_trace. simpl int_value. simpl bool_value.
  rewrite wrap_short_id by (unfold SHRT_MAX in *; lia).
  destruct (Z.ltb_spec n 0); [lia|]. destruct (Z.ltb_spec nboot 0); [lia|].
  simpl orb. cbv iota. rewrite Hcols. simpl. unfold matrix_of.
  split_and!; try done; try lia.
  - eapply Forall_impl; [exact HM|]. intros col Hc. simpl in Hc. lia.
  - intros v Hv.
    assert (rd (c (init n nboot)) (v - 1) = Some nboot) as Hrd.
    { rewrite rd_nat by lia. unfold init. simpl. apply lookup_replicate_2. lia. }
    pose proof (Hcnt _ _ Hrd) as Hrd'. replace (v - 1 + 1) with v in Hrd' by lia.
    destruct Hinv' as (_ & Hpos & Hsum & _).
    rewrite rd_nat in Hrd' by lia.
    pose proof (lookup_le_sumZ _ _ _ Hpos Hrd').
    assert (0 <= nboot - occ v (concat M)) by (by eapply (Forall_lookup_1 _ _ _ _ Hpos)).
    lia.
  - intros t s Ht. destruct (Hlog t s Ht) as (Hrg & HNt & b & Hb' & Hv).
    rewrite Hrng in Hrg. split_and!; [lia|lia|]. exists b. split; [lia|done].
Qed.

(** ** Unfolding equations

    Stated once for all arguments, so that a call on large constants is
    rewritten rather than evaluated. *)

Lemma boot_unfold args draws :
  boot args draws = ('(M, _) ← boot_trace args draws; Ok M).
Proof. reflexivity. Qed.

Lemma boot_trace_unfold n nboot u draws :
  0 <= n <= SHRT_MAX -> 0 <= nboot ->
  boot_trace [ov_int n; ov_int nboot; ov_bool u] draws =
    ('(M, _, log) ← cols draws u n (Z.to_nat nboot) 0 (init n nboot); Ok (M, log)).
Proof.
  intros Hn Hb. unfold boot_trace. simpl int_value. simpl bool_value.
  rewrite wrap_short_id by (unfold SHRT_MAX in *; lia).
  destruct (Z.ltb_spec n 0); [lia|]. destruct (Z.ltb_spec nboot 0); [lia|]. done.
Qed.

Lemma cols_S draws u n f b s :
  cols draws u n (S f) b s =
    (s0 ← set_r u n b s;
     '(col, s1, log1) ← rows draws u (Z.to_nat n) s0;
     '(M, s2, log2) ← cols draws u n f (b + 1) s1;
     Ok (col :: M, s2, log1 ++ log2)).
Proof. reflexivity. Qed.

Lemma rows_S draws u f s :
  rows draws u (S f) s =
    ('(v, s1) ← draw draws u s;
     '(col, s2, log) ← rows draws u f s1;
     Ok (v :: col, s2, s :: log)).
Proof. reflexivity. Qed.


(** ** The pass that starts in a visited state *)


(** ** Balance and shape *)


Lemma quarters_range t : (0 <= quarters t)%Q /\ (quarters t < 1)%Q.
Proof. unfold quarters. destruct (Nat.even t); split; unfold Qle, Qlt; simpl; lia. Defined.


(** *** The product that does not fit

    [n = 32767], [nboot = 131072]: [n * nboot = 2^32 - 2^17] wraps to
    [N = -131072].  With every draw one half, [k] is negative at each of
    the first 163835 draws, the walk breaks at [j = 0] each time, and the
    first five columns hold the index 1 only. *)





(** ** Every pass of the row loop *)







(** ** The counters during a run *)

(** X1.  Under the conditions of C1 (amended), when the pass for the
    [t]-th draw starts, [t] values have been drawn, [c] holds [n]
    counters none of which is negative, and their total is [N], which is
    [n * nboot - t]. *)
Theorem counters_sum_to_remaining (n nboot : Z) (u : bool) (draws : nat -> Q) :
  0 < n <= SHRT_MAX -> 0 < nboot -> n * nboot <= INT_MAX ->
  (forall t, (0 <= draws t)%Q /\ (draws t < 1)%Q) ->
  exists M log,
    boot_trace [ov_int n; ov_int nboot; ov_bool u] draws = Ok (M, log) /\
    Z.of_nat (length log) = n * nboot /\
    forall (t : nat) (s : state), log !! t = Some s ->
      rng s = t /\ Z.of_nat (length (c s)) = n /\ nonneg (c s) /\
      sumZ (c s) = N s /\ N s = n * nboot - Z.of_nat t.
Proof.
  intros Hn Hb Hmax Hdraws.
  destruct (boot_trace_spec n nboot u draws Hn Hb Hmax Hdraws)
    as (M & log & Htrace & _ & _ & _ & Hlen & Hlog).
  exists M, log. split_and!; try done.
  intros t s Ht.
  destruct (Hlog t s Ht) as (Hrg & HN & b & _ & (Hlen' & Hpos & Hsum & _) & _).
  split_and!; try done. lia.
Qed.

Lemma counters_sum_to_remaining_witness :
  exists M log,
    boot_trace [ov_int 3; ov_int 2; ov_bool true] quarters = Ok (M, log) /\
    Z.of_nat (length log) = 3 * 2 /\
    forall (t : nat) (s : state), log !! t = Some s ->
      rng s = t /\ Z.of_nat (length (c s)) = 3 /\ nonneg (c s) /\
      sumZ (c s) = N s /\ N s = 3 * 2 - Z.of_nat t.
Proof.
  apply (counters_sum_to_remaining 3 2 true quarters).
  - unfold SHRT_MAX. lia.
  - lia.
  - unfold INT_MAX. lia.
  - exact quarters_range.
Defined.

(** ** Leave-one-out *)



(** ** What the function tests *)

Lemma walk_no_usage rest : forall k d j, walk rest k d j <> UsageError.
Proof.
  induction rest as [|x rest IH]; intros k d j; simpl;
    destruct (k <? d); try done; try apply IH.
Qed.

Lemma draw_no_usage draws u s : draw draws u s <> UsageError.
Proof.
  unfold draw, loo_enter.
  assert (forall s1, sample draws s1 <> UsageError) as Hs.
  { intros s1. unfold sample. cbn [next_draw c].
    destruct (c s1) as [|d rest]; [done|].
    pose proof (walk_no_usage rest (draw_k draws s1) d 0) as Hw.
    destruct (walk rest (draw_k draws s1) d 0) as [j| |]; [|done..].
    unfold mbind, outcome_bind, commit. cbn [next_draw c].
    destruct (rd (c s1) j); done. }
  destruct u; [|apply Hs].
  destruct (rd (c s) (r s)) as [cr|]; [|done].
  destruct (negb (cr =? N s)); apply Hs.
Qed.

Lemma rows_no_usage draws u : forall fuel s, rows draws u fuel s <> UsageError.
Proof.
  induction fuel as [|fuel IH]; intros s; [done|]. rewrite rows_S.
  pose proof (draw_no_usage draws u s) as Hd.
  destruct (draw draws u s) as [[v s1]| |]; [|done..].
  unfold mbind, outcome_bind. specialize (IH s1).
  destruct (rows draws u fuel s1) as [[[col s2] log]| |]; done.
Qed.

Lemma cols_no_usage draws u n : forall fuel b s, cols draws u n fuel b s <> UsageError.
Proof.
  induction fuel as [|fuel IH]; intros b s; [done|]. rewrite cols_S.
  unfold set_r. destruct u.
  - destruct (n =? 0); [done|]. unfold mbind, outcome_bind.
    match goal with |- context [rows ?d ?u ?f ?s0] =>
      pose proof (rows_no_usage d u f s0) as Hr;
      destruct (rows d u f s0) as [[[col s1] log1]| |]; [|done..] end.
    specialize (IH (b + 1) s1).
    destruct (cols draws true n fuel (b + 1) s1) as [[[M s2] log2]| |]; done.
  - unfold mbind, outcome_bind.
    pose proof (rows_no_usage draws false (Z.to_nat n) s) as Hr.
    destruct (rows draws false (Z.to_nat n) s) as [[[col s1] log1]| |]; [|done..].
    specialize (IH (b + 1) s1).
    destruct (cols draws false n fuel (b + 1) s1) as [[[M s2] log2]| |]; done.
Qed.

Lemma cols_no_rows draws : forall fuel b s,
  cols draws false 0 fuel b s = Ok (replicate fuel [], s, []).
Proof.
  induction fuel as [|fuel IH]; intros b s; [done|].
  rewrite cols_S. change (Z.to_nat 0) with 0%nat.
  cbn [set_r rows]. unfold mbind, outcome_bind.
  rewrite IH. done.
Qed.

(** C2 (amended).  [boot] stops with the usage error exactly when it is
    not given three arguments, and it tests neither [n] nor [nboot]: for
    [n = 0] in the plain mode it returns [nboot] empty columns, and for
    [nboot = 0] it returns no column. *)
Theorem boot_tests_argument_count_only (draws : nat -> Q) :
  (forall args, boot args draws = UsageError <-> length args <> 3%nat) /\
  (forall nboot, 0 <= nboot ->
     boot [ov_int 0; ov_int nboot; ov_bool false] draws =
       Ok (replicate (Z.to_nat nboot) [])) /\
  (forall n u, 0 <= n <= SHRT_MAX ->
     boot [ov_int n; ov_int 0; ov_bool u] draws = Ok []).
Proof.
  split_and!.
  - intros args. rewrite boot_unfold. unfold boot_trace.
    destruct args as [|a0 [|a1 [|a2 [|a3 rest]]]]; simpl length; try (split; [lia|done]).
    split; [|lia]. destruct (_ || _); [done|].
    unfold mbind, outcome_bind.
    match goal with |- context [cols ?d ?u ?n ?f ?b ?s] =>
      pose proof (cols_no_usage d u n f b s) as Hc;
      destruct (cols d u n f b s) as [[[M s2] log2]| |]; done end.
  - intros nboot Hb. rewrite boot_unfold, boot_trace_unfold by (unfold SHRT_MAX; lia).
    rewrite cols_no_rows. done.
  - intros n u Hn. rewrite boot_unfold, boot_trace_unfold by lia. done.
Qed.

(** C2 as stated fails: [boot (0, 5, false)] and [boot (5, 0, false)]
    return empty matrices. *)
Lemma boot_empty_without_error :
  boot [ov_int 0; ov_int 5; ov_bool false] half = Ok [[]; []; []; []; []] /\
  boot [ov_int 5; ov_int 0; ov_bool false] half = Ok [].
Proof. split; reflexivity. Qed.

(** ** Cells and passes *)

Lemma rows_cells draws u : forall fuel s col s' log,
  rows draws u fuel s = Ok (col, s', log) ->
  length col = fuel /\ length log = fuel /\
  forall (i : nat) v, col !! i = Some v ->
    exists si sn, log !! i = Some si /\ draw draws u si = Ok (v, sn).
Proof.
  induction fuel as [|fuel IH]; intros s col s' log; simpl.
  { intros [= <- _ <-]. split_and!; try done. }
  destruct (draw draws u s) as [[v s1]| |] eqn:Hd; [|done..]. simpl.
  destruct (rows draws u fuel s1) as [[[col1 s2] log1]| |] eqn:Hr; [|done..]. simpl.
  intros [= <- _ <-].
  destruct (IH _ _ _ _ Hr) as (Hlc & Hll & Hcells).
  split_and!; simpl; try lia.
  intros [|i] w Hw.
  - injection Hw as <-. by exists s, s1.
  - by apply Hcells.
Qed.

Lemma set_r_keeps u n b s s0 :
  set_r u n b s = Ok s0 ->
  c s0 = c s /\ N s0 = N s /\ rng s0 = rng s /\ LOO s0 = LOO s /\ m s0 = m s /\
  (u = false -> s0 = s).
Proof.
  unfold set_r. destruct u.
  - destruct (n =? 0); [done|]. intros [= <-]. done.
  - intros [= <-]. done.
Qed.

Lemma cols_cells draws u n : forall fuel b s M s' log,
  cols draws u n fuel b s = Ok (M, s', log) ->
  length M = fuel /\ length log = (fuel * Z.to_nat n)%nat /\
  Forall (fun col => length col = Z.to_nat n) M /\
  forall (b' i : nat) v, cell M b' i = Some v ->
    exists si sn, log !! (b' * Z.to_nat n + i)%nat = Some si /\
                  draw draws u si = Ok (v, sn).
Proof.
  induction fuel as [|fuel IH]; intros b s M s' log.
  { simpl. intros [= <- _ <-]. split_and!; try done. }
  rewrite cols_S.
  destruct (set_r u n b s) as [s0| |] eqn:Hs; [|done..]. simpl.
  destruct (rows draws u (Z.to_nat n) s0) as [[[col s1] log1]| |] eqn:Hr; [|done..]. simpl.
  destruct (cols draws u n fuel (b + 1) s1) as [[[M1 s2] log2]| |] eqn:Hc; [|done..]. simpl.
  intros [= <- _ <-].
  destruct (rows_cells _ _ _ _ _ _ _ Hr) as (Hlc & Hll & Hcells).
  destruct (IH _ _ _ _ _ Hc) as (HlM & Hll2 & Hall & Hcells2).
  split_and!; simpl; try lia.
  { rewrite length_app. lia. }
  { by constructor. }
  intros [|b'] i v Hv; unfold cell in Hv; simpl in Hv.
  - destruct (Hcells i v Hv) as (si & sn & Hsi & Hdraw).
    exists si, sn. split; [|done]. simpl. by apply lookup_app_l_Some.
  - destruct (Hcells2 b' i v) as (si & sn & Hsi & Hdraw); [done|].
    exists si, sn. split; [|done].
    rewrite lookup_app_r by (simpl; lia).
    rewrite <- Hsi. f_equal. simpl. lia.
Qed.

Lemma trace_cells n nboot u draws M log :
  0 <= n <= SHRT_MAX -> 0 <= nboot ->
  boot_trace [ov_int n; ov_int nboot; ov_bool u] draws = Ok (M, log) ->
  forall (b i : nat) v, cell M b i = Some v ->
    exists s sn, log !! (b * Z.to_nat n + i)%nat = Some s /\
                 draw draws u s = Ok (v, sn).
Proof.
  intros Hn Hb. rewrite boot_trace_unfold by done.
  destruct (cols draws u n (Z.to_nat nboot) 0 (init n nboot))
    as [[[M' s'] log']| |] eqn:Hc; [|done..].
  simpl. intros [= <- <-].
  by destruct (cols_cells _ _ _ _ _ _ _ _ _ Hc) as (_ & _ & _ & H).
Qed.

Lemma cell_defined n nboot M (b i : nat) :
  matrix_of n nboot M -> Z.of_nat b < nboot -> Z.of_nat i < n ->
  exists v, cell M b i = Some v.
Proof.
  intros [Hl Hall] Hb Hi. unfold cell.
  destruct (lookup_lt_is_Some_2 M b ltac:(lia)) as [col Hcol]. rewrite Hcol.
  pose proof (Forall_lookup_1 _ _ _ _ Hall Hcol) as Hlc. simpl in Hlc.
  apply lookup_lt_is_Some_2. lia.
Qed.

Lemma visited_column u n b b' s :
  0 < n -> visited u n b' s -> b * n <= Z.of_nat (rng s) < (b + 1) * n -> b' = b.
Proof. intros Hn (_ & _ & Hr & _) Hb. nia. Qed.

(** X6.  The bootknife at the level of a run.  Under the conditions of
    C1 (amended), in unbiased mode, the cell of row [i] and column [b] is
    written by the pass that starts in the state [b * n + i] of the run,
    where [r = b mod n]; the cell holds [r + 1] only if, when that pass
    starts, [c[r]] equals [N] and every other counter is zero, that is
    only if no other index is left to draw. *)
Theorem bootknife_leaves_one_out (n nboot : Z) (draws : nat -> Q) :
  0 < n <= SHRT_MAX -> 0 < nboot -> n * nboot <= INT_MAX ->
  (forall t, (0 <= draws t)%Q /\ (draws t < 1)%Q) ->
  exists M log,
    boot_trace [ov_int n; ov_int nboot; ov_bool true] draws = Ok (M, log) /\
    forall (b i : nat), Z.of_nat b < nboot -> Z.of_nat i < n ->
      exists v s,
        cell M b i = Some v /\ log !! (b * Z.to_nat n + i)%nat = Some s /\
        r s = Z.of_nat b mod n /\
        (v = Z.of_nat b mod n + 1 ->
           rd (c s) (Z.of_nat b mod n) = Some (N s) /\
           forall j x, j <> Z.of_nat b mod n -> rd (c s) j = Some x -> x = 0).
Proof.
  intros Hn Hb Hmax Hdraws.
  destruct (boot_trace_spec n nboot true draws Hn Hb Hmax Hdraws)
    as (M & log & Htrace & Hshape & _ & _ & _ & Hlog).
  exists M, log. split; [done|]. intros b i Hb' Hi.
  destruct (cell_defined n nboot M b i Hshape Hb' Hi) as [v Hv].
  destruct (trace_cells n nboot true draws M log ltac:(lia) ltac:(lia) Htrace b i v Hv)
    as (s & sn & Hs & Hdraw).
  destruct (Hlog _ _ Hs) as (Hrng & HN & b'' & Hb'' & Hvis).
  assert (b'' = Z.of_nat b) as ->.
  { apply (visited_column true n (Z.of_nat b) b'' s (proj1 Hn) Hvis). rewrite Hrng.
    rewrite Nat2Z.inj_add, Nat2Z.inj_mul, Z2Nat.id by lia. nia. }
  pose proof Hvis as (Hinv & HNpos & _ & Hr). specialize (Hr eq_refl).
  exists v, s. split_and!; try done.
  intros ->.
  assert (0 <= Z.of_nat b mod n < n) as Hmod by (apply Z.mod_pos_bound; lia).
  destruct (draw_spec draws true n s (proj1 Hn) Hinv HNpos) as
    (s1 & d & rest & j & cj & He & Hact & HN1 & Hjr & Hd & Hk & Hw & Hj & Hcj & Hcj1 & Hc & Hco & Hex & Hdraw');
    try apply Hdraws.
  { intros _. by rewrite Hr. }
  rewrite Hdraw in Hdraw'. injection Hdraw' as Hj' _.
  assert (j = r s) as -> by lia.
  destruct Hinv as (Hlen & Hpos & Hsum & _).
  assert (rd (c s) (r s) = Some (N s)) as HrN.
  { destruct (Z.eq_dec cj (N s)) as [<-|Hne]; [done|].
    pose proof (loo_enter_zero s cj Hcj Hne) as He'. rewrite He in He'.
    injection He' as Hs1. exfalso. apply Hjr; [|done]. by rewrite Hs1. }
  rewrite <- Hr. split; [done|].
  intros j x Hne Hx.
  pose proof (rd_Some_range _ _ _ Hx) as Hjrange.
  rewrite rd_nat in Hx, HrN by lia.
  assert (0 <= x) as Hx0 by (by eapply (Forall_lookup_1 _ _ _ _ Hpos)).
  pose proof (sumZ_insert _ _ 0 _ Hx) as Hins.
  assert (<[Z.to_nat j:=0]> (c s) !! Z.to_nat (r s) = Some (N s)) as Hr'.
  { rewrite list_lookup_insert_ne by lia. done. }
  assert (nonneg (<[Z.to_nat j:=0]> (c s))) as Hpos'.
  { apply Forall_insert; [done|lia]. }
  pose proof (lookup_le_sumZ _ _ _ Hpos' Hr'). lia.
Qed.

(** ** The index a draw selects *)





(** ** The plain bootstrap *)

Lemma draw_plain draws s v sn :
  draw draws false s = Ok (v, sn) ->
  r sn = r s /\ (LOO s = false -> m s = 0 -> LOO sn = false /\ m sn = 0).
Proof.
  unfold draw, loo_enter. simpl. unfold sample.
  destruct (c (next_draw s)) as [|d rest] eqn:Hc; [done|].
  destruct (walk rest (draw_k draws s) d 0) as [j| |]; [|done..]. simpl.
  unfold commit. destruct (rd (c (next_draw s)) j) as [cj|]; [|done]. simpl.
  intros [= _ <-]. unfold loo_exit. simpl.
  destruct (LOO s) eqn:HL; simpl; split; try done.
Qed.

Lemma rows_plain draws : forall fuel s col s' log,
  rows draws false fuel s = Ok (col, s', log) ->
  LOO s = false -> m s = 0 ->
  r s' = r s /\ LOO s' = false /\ m s' = 0 /\
  Forall (fun si => LOO si = false /\ r si = r s /\ m si = 0) log.
Proof.
  induction fuel as [|fuel IH]; intros s col s' log; simpl.
  { intros [= _ <- <-]. done. }
  destruct (draw draws false s) as [[v s1]| |] eqn:Hd; [|done..]. simpl.
  destruct (rows draws false fuel s1) as [[[col1 s2] log1]| |] eqn:Hr; [|done..]. simpl.
  intros [= _ <- <-] HL Hm.
  destruct (draw_plain _ _ _ _ Hd) as (Hr1 & H1). destruct (H1 HL Hm) as [HL1 Hm1].
  destruct (IH _ _ _ _ Hr HL1 Hm1) as (Hr2 & HL2 & Hm2 & Hall).
  split_and!; try done; try congruence.
  constructor; [done|].
  eapply Forall_impl; [exact Hall|]. simpl. intros si (? & ? & ?). split_and!; congruence.
Qed.

Lemma cols_plain draws n : forall fuel b s M s' log,
  cols draws false n fuel b s = Ok (M, s', log) ->
  LOO s = false -> m s = 0 ->
  Forall (fun si => LOO si = false /\ r si = r s /\ m si = 0) log.
Proof.
  induction fuel as [|fuel IH]; intros b s M s' log.
  { simpl. intros [= _ _ <-]. done. }
  rewrite cols_S. simpl.
  destruct (rows draws false (Z.to_nat n) s) as [[[col s1] log1]| |] eqn:Hr; [|done..]. simpl.
  destruct (cols draws false n fuel (b + 1) s1) as [[[M1 s2] log2]| |] eqn:Hc; [|done..]. simpl.
  intros [= _ _ <-] HL Hm.
  destruct (rows_plain _ _ _ _ _ _ Hr HL Hm) as (Hr1 & HL1 & Hm1 & Hall).
  apply Forall_app. split; [done|].
  eapply Forall_impl; [exact (IH _ _ _ _ _ Hc HL1 Hm1)|].
  simpl. intros si (? & ? & ?). split_and!; congruence.
Qed.

(** X8.  In a run of the plain bootstrap ([u] false) that returns, every
    pass of the row loop starts with [LOO] false, [r = -1] and [m = 0],
    and its leave-one-out step changes nothing, as the comments of the
    declarations say; no condition on [n] and [nboot] is needed. *)
Theorem plain_mode_keeps_loo_variables (n nboot : Z) (draws : nat -> Q)
  (M : list (list Z)) (log : list state) :
  boot_trace [ov_int n; ov_int nboot; ov_bool false] draws = Ok (M, log) ->
  Forall (fun s => LOO s = false /\ r s = -1 /\ m s = 0 /\
                   loo_enter false s = Ok s) log.
Proof.
  unfold boot_trace. simpl int_value. simpl bool_value.
  destruct ((wrap_short n <? 0) || (nboot <? 0)); [done|].
  destruct (cols draws false (wrap_short n) (Z.to_nat nboot) 0 (init (wrap_short n) nboot))
    as [[[M' s'] log']| |] eqn:Hc; [|done..].
  simpl. intros [= _ <-].
  eapply Forall_impl; [exact (cols_plain _ _ _ _ _ _ _ _ Hc eq_refl eq_refl)|].
  simpl. intros s (HL & Hr & Hm). split_and!; done.
Qed.

Lemma plain_mode_keeps_loo_variables_witness :
  Forall (fun s => LOO s = false /\ r s = -1 /\ m s = 0 /\
                   loo_enter false s = Ok s) (snd plain_run).
Proof.
  apply (plain_mode_keeps_loo_variables 3 2 quarters (fst plain_run) (snd plain_run)).
  vm_compute. reflexivity.
Defined.

Lemma bootknife_leaves_one_out_witness :
  exists M log,
    boot_trace [ov_int 3; ov_int 2; ov_bool true] quarters = Ok (M, log) /\
    forall (b i : nat), Z.of_nat b < 2 -> Z.of_nat i < 3 ->
      exists v s,
        cell M b i = Some v /\ log !! (b * Z.to_nat 3 + i)%nat = Some s /\
        r s = Z.of_nat b mod 3 /\
        (v = Z.of_nat b mod 3 + 1 ->
           rd (c s) (Z.of_nat b mod 3) = Some (N s) /\
           forall j x, j <> Z.of_nat b mod 3 -> rd (c s) j = Some x -> x = 0).
Proof.
  apply (bootknife_leaves_one_out 3 2 quarters).
  - unfold SHRT_MAX. lia.
  - lia.
  - unfold INT_MAX. lia.
  - exact quarters_range.
Defined.


(** ** The conversion of [n] *)



End BootFacts.

(* ================================================================== *)
(** * Part IV: properties of smoothmedian.cpp *)
(* ================================================================== *)

Module SmoothMedianFacts.
Import SmoothMedian.

(** ** The loop of one row or column *)

Lemma iterate_S fuel Iter xvec Tol st :
  iterate (S fuel) Iter xvec Tol st =
    (v ← body xvec Tol st;
     match v with
     | RangeMet => Done (mkRun (M st) false ByRange 1 0)
     | StepMet => Done (mkRun (M st) false ByStep 1 1)
     | Next st' =>
         rn ← iterate fuel (S Iter) xvec Tol st';
         Done (add_pass (Iter =? MaxIter)%nat rn)
     end).
Proof. reflexivity. Qed.

Lemma iterate_entered xvec Tol : forall fuel Iter st rn,
  iterate fuel Iter xvec Tol st = Done rn ->
  (passes rn <= entered rn <= fuel)%nat.
Proof.
  induction fuel as [|fuel IH]; intros Iter st rn.
  { intros [= <-]. simpl. lia. }
  rewrite iterate_S. destruct (body xvec Tol st) as [[| |st']| |]; try done.
  - intros [= <-]. simpl. lia.
  - intros [= <-]. simpl. lia.
  - unfold mbind, result_bind.
    destruct (iterate fuel (S Iter) xvec Tol st') as [rn'| |] eqn:Hit; try done.
    intros [= <-]. apply IH in Hit. simpl. lia.
Qed.

Lemma iterate_stop xvec Tol : forall fuel Iter st rn,
  (Iter + fuel = S MaxIter)%nat ->
  iterate fuel Iter xvec Tol st = Done rn ->
  (fuel = 0%nat -> stopped rn = Exhausted) /\
  (stopped rn = Exhausted ->
     entered rn = fuel /\ passes rn = fuel /\ (warned rn = true <-> (0 < fuel)%nat)) /\
  (stopped rn <> Exhausted -> warned rn = false).
Proof.
  induction fuel as [|fuel IH]; intros Iter st rn Hsum.
  { intros [= <-]. simpl. split_and!; try done. intros _. split_and!; try done. lia. }
  rewrite iterate_S. destruct (body xvec Tol st) as [[| |st']| |]; try done.
  - intros [= <-]. simpl. split_and!; done.
  - intros [= <-]. simpl. split_and!; done.
  - unfold mbind, result_bind.
    destruct (iterate fuel (S Iter) xvec Tol st') as [rn'| |] eqn:Hit; try done.
    intros [= <-]. apply IH in Hit as (H0 & HE & HN); [|lia]. simpl.
    split_and!; [lia| |].
    + intros Hs. destruct (HE Hs) as (-> & -> & Hw). split_and!; try done.
      split; [lia|]. intros _.
      destruct (Nat.eqb_spec Iter MaxIter) as [Heq|Hne]; [done|]. simpl.
      apply Hw. unfold MaxIter in *. lia.
    + intros Hs. rewrite (HN Hs).
      destruct (Nat.eqb_spec Iter MaxIter) as [Heq|Hne]; [|done].
      exfalso. apply Hs, H0. unfold MaxIter in *. lia.
Qed.

Lemma iterate_exhausted xvec Tol : forall fuel Iter st rn,
  iterate fuel Iter xvec Tol st = Done rn -> stopped rn = Exhausted ->
  exists st', advance xvec Tol fuel st = Done (Some st') /\ estimate rn = M st'.
Proof.
  induction fuel as [|fuel IH]; intros Iter st rn.
  { intros [= <-] _. exists st. done. }
  rewrite iterate_S. simpl advance.
  destruct (body xvec Tol st) as [[| |st']| |]; try done.
  - intros [= <-]. done.
  - intros [= <-]. done.
  - unfold mbind, result_bind.
    destruct (iterate fuel (S Iter) xvec Tol st') as [rn'| |] eqn:Hit; try done.
    intros [= <-] Hs. simpl in *. by eapply IH.
Qed.

Lemma advance_iterate xvec Tol : forall fuel Iter st st',
  (Iter + fuel = S MaxIter)%nat -> (0 < fuel)%nat ->
  advance xvec Tol fuel st = Done (Some st') ->
  iterate fuel Iter xvec Tol st = Done (mkRun (M st') true Exhausted fuel fuel).
Proof.
  induction fuel as [|fuel IH]; intros Iter st st' Hsum Hpos; [lia|].
  rewrite iterate_S. simpl advance.
  destruct (body xvec Tol st) as [[| |st1]| |]; try done.
  unfold mbind, result_bind. intros Hadv.
  destruct fuel as [|fuel].
  - simpl in Hadv. injection Hadv as <-. simpl.
    replace (Iter =? MaxIter)%nat with true; [done|].
    symmetry. apply Nat.eqb_eq. unfold MaxIter in *. lia.
  - rewrite (IH (S Iter) st1 st') by (done || lia).
    unfold add_pass. simpl. by rewrite orb_true_r.
Qed.

(** ** The loop over the rows or columns *)

Lemma vectors_spec x dim m n Tol : forall ks rns,
  vectors x dim m n Tol ks = Done rns ->
  length rns = length ks /\
  forall j rn, rns !! j = Some rn ->
    exists k xs, ks !! j = Some k /\ gather x dim m n k = Done xs /\
                 smooth xs Tol = Done rn.
Proof.
  induction ks as [|k ks IH]; intros rns.
  { intros [= <-]. split; [done|]. intros j rn Hj. done. }
  simpl vectors. unfold mbind, result_bind.
  destruct (gather x dim m n k) as [xs| |] eqn:Hg; try done.
  destruct (smooth xs Tol) as [rn0| |] eqn:Hs; try done.
  destruct (vectors x dim m n Tol ks) as [rns'| |] eqn:Hv; try done.
  intros [= <-]. destruct (IH rns' eq_refl) as [Hlen Hall].
  split; [simpl; lia|].
  intros [|j] rn Hj.
  - injection Hj as <-. exists k, xs. done.
  - apply Hall in Hj as (k' & xs' & ? & ? & ?). exists k', xs'. done.
Qed.

Lemma smooth_iterate xs Tol rn :
  smooth xs Tol = Done rn ->
  exists st tol,
    start (sort xs) = Done st /\
    tol = match Tol with Some t => t | None => default_Tol (range st) end /\
    iterate (S MaxIter) 0 (sort xs) tol st = Done rn.
Proof.
  unfold smooth, mbind, result_bind.
  destruct (start (sort xs)) as [st| |]; try done.
  intros H. by exists st, (match Tol with Some t => t | None => default_Tol (range st) end).
Qed.

Lemma warnings_spec : forall rns k i,
  i ∈ warnings k rns <->
  exists j rn, rns !! j = Some rn /\ warned rn = true /\ i = S (k + j).
Proof.
  induction rns as [|rn rns IH]; intros k i; simpl.
  { split; [by intros ?%elem_of_nil|]. intros (j & rn & Hj & _). done. }
  rewrite elem_of_app, IH. split.
  - intros [Hi|(j & rn' & Hj & Hw & ->)].
    + destruct (warned rn) eqn:Hw; [|by apply elem_of_nil in Hi].
      apply list_elem_of_singleton in Hi as ->.
      exists 0%nat, rn. split_and!; try done; lia.
    + exists (S j), rn'. split_and!; try done; lia.
  - intros ([|j] & rn' & Hj & Hw & ->).
    + injection Hj as ->. left. rewrite Hw. apply list_elem_of_singleton. lia.
    + right. exists j, rn'. split_and!; try done; lia.
Qed.

Lemma mexFunction_unfold prhs :
  mexFunction prhs =
    ('(dim, n, rns) ← mexFunction_trace prhs;
     Done (plhs0 dim n rns, warnings 0 rns)).
Proof. reflexivity. Qed.

Lemma mexFunction_trace_unfold x opt :
  mexFunction_trace (x :: opt) =
    (dim ← requested_dim opt;
     if negb (dim =? 1)%Z && negb (dim =? 2)%Z then Raise BadDim
     else
       Tol ← requested_Tol opt;
       let dim := if (sz0 x =? 1)%nat then 2%Z else dim in
       let '(m, n) := extent x dim in
       rns ← vectors (pr x) dim m n Tol (seq 0 n);
       Done (dim, n, rns)).
Proof. reflexivity. Qed.

Lemma trace_vectors x opt dim n rns :
  mexFunction_trace (x :: opt) = Done (dim, n, rns) ->
  exists Tol,
    requested_Tol opt = Done Tol /\ n = snd (extent x dim) /\
    vectors (pr x) dim (fst (extent x dim)) n Tol (seq 0 n) = Done rns.
Proof.
  rewrite mexFunction_trace_unfold. unfold mbind, result_bind.
  destruct (requested_dim opt) as [d| |]; try done.
  destruct (negb (d =? 1)%Z && negb (d =? 2)%Z); try done.
  destruct (requested_Tol opt) as [Tol| |]; try done.
  cbv zeta.
  destruct (extent x (if (sz0 x =? 1)%nat then 2%Z else d)) as [m' n'] eqn:He.
  destruct (vectors _ _ _ _ _ _) as [rns'| |] eqn:Hv; try done.
  intros [= <- <- <-]. exists Tol. rewrite He. done.
Qed.

(** C5.  In a call that returns, every row or column enters the loop body
    at most 20 times; its warning, with the number [k + 1], is printed
    exactly when the loop ran out, that is when all 20 passes went on
    without meeting the range or the step criterion; the estimate stored
    for it is then the [M] the twentieth pass computed; and running out is
    no error: the loop returns and the later vectors are processed, every
    slot of the result being filled. *)
Theorem iteration_cap (x : mxArray) (opt : list mxArray) (dim : Z) (n : nat)
  (rns : list run) :
  mexFunction_trace (x :: opt) = Done (dim, n, rns) ->
  mexFunction (x :: opt) = Done (plhs0 dim n rns, warnings 0 rns) /\
  length rns = n /\
  pr (plhs0 dim n rns) = map estimate rns /\
  (forall xvec Tol st st',
     advance xvec Tol (S MaxIter) st = Done (Some st') ->
     iterate (S MaxIter) 0 xvec Tol st =
       Done (mkRun (M st') true Exhausted (S MaxIter) (S MaxIter))) /\
  forall k rn, rns !! k = Some rn ->
    (entered rn <= 20)%nat /\
    (S k ∈ warnings 0 rns <-> stopped rn = Exhausted) /\
    pr (plhs0 dim n rns) !! k = Some (estimate rn) /\
    exists xs Tol st,
      gather (pr x) dim (fst (extent x dim)) n k = Done xs /\
      start (sort xs) = Done st /\
      iterate (S MaxIter) 0 (sort xs) Tol st = Done rn /\
      (stopped rn = Exhausted <->
       exists st', advance (sort xs) Tol (S MaxIter) st = Done (Some st') /\
                   estimate rn = M st').
Proof.
  intros Htrace. rewrite mexFunction_unfold, Htrace.
  apply trace_vectors in Htrace as (Tol & HTol & Hn & Hv).
  apply vectors_spec in Hv as [Hlen Hall]. rewrite length_seq in Hlen.
  split_and!; try done.
  { unfold plhs0. by destruct (dim =? 1)%Z. }
  { intros xvec tol st st' Hadv. apply advance_iterate; [done|lia|done]. }
  intros k rn Hk.
  destruct (Hall k rn Hk) as (k' & xs & Hk' & Hg & Hs).
  apply lookup_seq in Hk' as [-> _]. simpl in Hg.
  apply smooth_iterate in Hs as (st & tol & Hst & _ & Hit).
  pose proof (iterate_entered _ _ _ _ _ _ Hit) as Hent.
  pose proof (iterate_stop (sort xs) tol (S MaxIter) 0 st rn eq_refl Hit) as (_ & HE & HN).
  assert (warned rn = true <-> stopped rn = Exhausted) as Hw.
  { split.
    - intros Hw. destruct (stopped rn) eqn:Hs; try done;
        rewrite HN in Hw; done.
    - intros Hs. apply HE; [done|lia]. }
  split_and!.
  - unfold MaxIter in *. lia.
  - rewrite warnings_spec, <- Hw. split.
    + intros (j & rn' & Hj & Hwj & Heq). assert (j = k) as -> by lia.
      rewrite Hk in Hj. by injection Hj as ->.
    + intros Hwk. exists k, rn. done.
  - assert (map estimate rns !! k = Some (estimate rn)) as Hm
      by (by rewrite list_lookup_fmap, Hk).
    unfold plhs0. by destruct (dim =? 1)%Z.
  - exists xs, tol, st. split_and!; try done. split.
    + intros Hs. by eapply iterate_exhausted.
    + intros (st' & Hadv & _).
      rewrite (advance_iterate (sort xs) tol (S MaxIter) 0 st st' eq_refl ltac:(lia) Hadv) in Hit.
      by injection Hit as <-.
Qed.


Lemma iteration_cap_witness :
  mexFunction (slow_x :: slow_opt) = Done (plhs0 2 1 slow_runs, warnings 0 slow_runs) /\
  length slow_runs = 1%nat /\
  pr (plhs0 2 1 slow_runs) = map estimate slow_runs /\
  (forall xvec Tol st st',
     advance xvec Tol (S MaxIter) st = Done (Some st') ->
     iterate (S MaxIter) 0 xvec Tol st =
       Done (mkRun (M st') true Exhausted (S MaxIter) (S MaxIter))) /\
  forall k rn, slow_runs !! k = Some rn ->
    (entered rn <= 20)%nat /\
    (S k ∈ warnings 0 slow_runs <-> stopped rn = Exhausted) /\
    pr (plhs0 2 1 slow_runs) !! k = Some (estimate rn) /\
    exists xs Tol st,
      gather (pr slow_x) 2 (fst (extent slow_x 2)) 1 k = Done xs /\
      start (sort xs) = Done st /\
      iterate (S MaxIter) 0 (sort xs) Tol st = Done rn /\
      (stopped rn = Exhausted <->
       exists st', advance (sort xs) Tol (S MaxIter) st = Done (Some st') /\
                   estimate rn = M st').
Proof. apply (iteration_cap slow_x slow_opt 2 1 slow_runs). vm_compute. reflexivity. Defined.

Example slow_runs_warned :
  map warned slow_runs = [true] /\ map entered slow_runs = [20%nat] /\
  warnings 0 slow_runs = [1%nat].
Proof. vm_compute. done. Qed.

(** ** The single element *)

(** C6.  [smoothmedian (5)], with or without a valid [dim] and without
    [Tol], returns 5: the range is zero, the loop breaks at the range test
    of its first pass and the derivatives are never computed. *)
Theorem single_element :
  mexFunction [scalar 5] = Done (scalar 5, []) /\
  mexFunction [scalar 5; scalar 1] = Done (scalar 5, []) /\
  mexFunction [scalar 5; scalar 2] = Done (scalar 5, []) /\
  mexFunction_trace [scalar 5] = Done (2%Z, 1%nat, [mkRun 5 false ByRange 1 0]).
Proof. vm_compute. done. Qed.

(** ** The requested dimension *)



(** C7.  When [sz[0]] is 1 and the requested [dim] is valid (absent, 1
    or 2), the call is the call with [dim = 2]: [dim] is 2 in force and
    the one row of [x] is processed. *)
Theorem singleton_forces_rows (x : mxArray) (opt : list mxArray) :
  sz0 x = 1%nat -> valid_dim opt ->
  mexFunction_trace (x :: opt) = mexFunction_trace (x :: with_dim2 opt) /\
  mexFunction (x :: opt) = mexFunction (x :: with_dim2 opt) /\
  forall dim n rns,
    mexFunction_trace (x :: opt) = Done (dim, n, rns) ->
    dim = 2%Z /\ n = 1%nat /\ n = sz0 x.
Proof.
  intros Hsz Hv.
  assert (requested_Tol (with_dim2 opt) = requested_Tol opt) as HT
    by (by destruct opt as [|d [|t rest]]).
  assert (requested_dim (with_dim2 opt) = Done 2%Z) as H2 by reflexivity.
  assert (forall d, (d = 1 \/ d = 2)%Z -> requested_dim opt = Done d ->
            mexFunction_trace (x :: opt) = mexFunction_trace (x :: with_dim2 opt) /\
            forall dim n rns,
              mexFunction_trace (x :: opt) = Done (dim, n, rns) ->
              dim = 2%Z /\ n = 1%nat /\ n = sz0 x) as Hcase.
  { intros d Hd Hreq. rewrite !mexFunction_trace_unfold, H2, HT, Hreq.
    unfold mbind, result_bind. rewrite Hsz.
    assert (negb (d =? 1)%Z && negb (d =? 2)%Z = false) as ->
      by (destruct Hd as [-> | ->]; done).
    split; [done|]. simpl.
    destruct (requested_Tol opt) as [Tol| |]; try done.
    intros dim n rns. unfold extent. simpl. rewrite Hsz.
    destruct (vectors _ _ _ _ _ _); try done. intros [= <- <- _]. done. }
  assert (mexFunction_trace (x :: opt) = mexFunction_trace (x :: with_dim2 opt) /\
          forall dim n rns,
            mexFunction_trace (x :: opt) = Done (dim, n, rns) ->
            dim = 2%Z /\ n = 1%nat /\ n = sz0 x) as [Ht Hd].
  { destruct Hv as [Hv|Hv].
    - apply (Hcase 1%Z); [by left|done].
    - apply (Hcase 2%Z); [by right|done]. }
  split_and!; [done| |done]. by rewrite !mexFunction_unfold, Ht.
Qed.

Lemma singleton_forces_rows_witness :
  mexFunction_trace [rowv [1; 2; 4]%float; scalar 1] =
    mexFunction_trace (rowv [1; 2; 4]%float :: with_dim2 [scalar 1]) /\
  mexFunction [rowv [1; 2; 4]%float; scalar 1] =
    mexFunction (rowv [1; 2; 4]%float :: with_dim2 [scalar 1]) /\
  forall dim n rns,
    mexFunction_trace [rowv [1; 2; 4]%float; scalar 1] = Done (dim, n, rns) ->
    dim = 2%Z /\ n = 1%nat /\ n = sz0 (rowv [1; 2; 4]%float).
Proof.
  apply (singleton_forces_rows (rowv [1; 2; 4]%float) [scalar 1]).
  - reflexivity.
  - left. reflexivity.
Defined.

(** ** Values that are not finite, and values that are large *)

(** C3 at an input with an infinite value: [smoothmedian ([1 2 Inf])]
    returns the ordinary median 2 and raises nothing.  The range and the
    default tolerance are both infinite, so the loop breaks at the range
    test before the derivatives, where the values are tested. *)
Lemma infinite_value_accepted :
  mexFunction [rowv [1; 2; infinity]%float] = Done (scalar 2, []) /\
  mexFunction_trace [rowv [1; 2; infinity]%float] =
    Done (2%Z, 1%nat, [mkRun 2 false ByRange 1 0]).
Proof. vm_compute. done. Qed.

(** C4 at finite values whose sum overflows: for
    [smoothmedian ([2^1023 2^1023])] the bracket is
    [[2^1023, 2^1023]] and the estimate, the mean of the two middle
    values, is infinite; it is what the call returns. *)
Lemma estimate_outside_bracket :
  start (sort [0x1p+1023; 0x1p+1023]%float) =
    Done (mkBracket 0x1p+1023 0x1p+1023 0 infinity) /\
  (infinity <=? 0x1p+1023)%float = false /\
  mexFunction [rowv [0x1p+1023; 0x1p+1023]%float] = Done (scalar infinity, []).
Proof. vm_compute. done. Qed.

(** ** The derivative loop and the finiteness test *)

Lemma derivatives_finite : forall rest before M TU,
  Forall finite rest -> exists TU', derivatives before rest M TU = Done TU'.
Proof.
  induction rest as [|xj rest IH]; intros before M TU Hfin; simpl.
  { by exists TU. }
  apply Forall_cons_1 in Hfin as [Hx Hfin]. unfold finite in Hx. rewrite Hx. simpl.
  by apply IH.
Qed.

Lemma derivatives_not_finite : forall rest before M TU,
  Exists (fun v => is_finite v = false) rest ->
  derivatives before rest M TU = Raise NotFinite.
Proof.
  induction rest as [|xj rest IH]; intros before M TU Hex; simpl.
  { by apply Exists_nil in Hex. }
  destruct (is_finite xj) eqn:Hx; simpl; [|done].
  apply Exists_cons in Hex as [Hex|Hex]; [congruence|]. by apply IH.
Qed.

Lemma not_all_finite (l : list float) :
  Forall finite l \/ Exists (fun v => is_finite v = false) l.
Proof.
  induction l as [|x l [IH|IH]].
  - left. constructor.
  - destruct (is_finite x) eqn:Hx.
    + left. by constructor.
    + right. by constructor.
  - right. by constructor.
Qed.

(** X2.  The finiteness test belongs to the derivative loop.  A pass of
    the loop body that meets the range criterion breaks without looking at
    the values; a pass that does not raises the error on [x] exactly when
    the vector holds a value that is not finite. *)
Theorem finiteness_tested_in_derivatives (xvec : list float) (Tol : float)
  (st : bracket) :
  ((range st <=? Tol)%float = true -> body xvec Tol st = Done RangeMet) /\
  ((range st <=? Tol)%float = false ->
     (body xvec Tol st = Raise NotFinite <->
      Exists (fun v => is_finite v = false) xvec)) /\
  (forall e, body xvec Tol st = Raise e -> e = NotFinite) /\
  body xvec Tol st <> Undefined.
Proof.
  unfold body. destruct (range st <=? Tol)%float; split_and!; try done.
  - intros _. destruct (not_all_finite xvec) as [Hfin|Hex].
    + destruct (derivatives_finite xvec [] (M st) (0, 0)%float Hfin) as [[T U] ->].
      simpl. split.
      * by destruct (abs (T / U) <? Tol)%float.
      * intros Hex. exfalso. apply Exists_exists in Hex as (v & Hv & Hnf).
        rewrite Forall_forall in Hfin. specialize (Hfin v Hv). unfold finite in Hfin.
        congruence.
    + rewrite (derivatives_not_finite _ _ _ _ Hex). done.
  - intros e. destruct (not_all_finite xvec) as [Hfin|Hex].
    + destruct (derivatives_finite xvec [] (M st) (0, 0)%float Hfin) as [[T U] ->].
      simpl. by destruct (abs (T / U) <? Tol)%float.
    + rewrite (derivatives_not_finite _ _ _ _ Hex). simpl. by intros [= <-].
  - destruct (not_all_finite xvec) as [Hfin|Hex].
    + destruct (derivatives_finite xvec [] (M st) (0, 0)%float Hfin) as [[T U] ->].
      simpl. by destruct (abs (T / U) <? Tol)%float.
    + rewrite (derivatives_not_finite _ _ _ _ Hex). done.
Qed.

(** ** One pass of the loop and the bracket *)

(** A pass that goes on narrows the bracket by moving at most one
    bound to the current estimate, recomputes the range from the new
    bounds, and leaves an estimate that is either the Newton value, found
    strictly inside the new bounds, or their mean [0.5 * (a + b)]. *)
Theorem bracket_step (xvec : list float) (Tol : float) (st st' : bracket) :
  body xvec Tol st = Done (Next st') ->
  ((a st' = a st /\ b st' = b st) \/
   (a st' = M st /\ b st' = b st) \/
   (a st' = a st /\ b st' = M st)) /\
  range st' = (b st' - a st')%float /\
  (((a st' <? M st')%float = true /\ (M st' <? b st')%float = true) \/
   M st' = (0.5 * (a st' + b st'))%float).
Proof.
  unfold body. destruct (range st <=? Tol)%float; [done|].
  destruct (derivatives [] xvec (M st) (0, 0)%float) as [[T U]| |]; simpl; try done.
  destruct (abs (T / U) <? Tol)%float; [done|].
  intros [= <-]. simpl.
  set (a' := if (T / U <? 0)%float then M st else a st).
  set (b' := if (T / U <? 0)%float then b st
             else if (0 <? T / U)%float then M st else b st).
  split_and!.
  - subst a' b'. destruct (T / U <? 0)%float; [by right; left|].
    destruct (0 <? T / U)%float; [by right; right|by left].
  - done.
  - destruct ((a' <? M st - T / U)%float && (M st - T / U <? b')%float) eqn:Hc.
    + left. by apply andb_prop in Hc.
    + by right.
Qed.

Lemma bracket_step_witness :
  ((a slow_next = a slow_start /\ b slow_next = b slow_start) \/
   (a slow_next = M slow_start /\ b slow_next = b slow_start) \/
   (a slow_next = a slow_start /\ b slow_next = M slow_start)) /\
  range slow_next = (b slow_next - a slow_next)%float /\
  (((a slow_next <? M slow_next)%float = true /\
    (M slow_next <? b slow_next)%float = true) \/
   M slow_next = (0.5 * (a slow_next + b slow_next))%float).
Proof.
  apply (bracket_step (pr slow_x) 0 slow_start slow_next).
  vm_compute. reflexivity.
Defined.

(** ** Sorting keeps the values *)

Lemma insert_perm x l : insert x l ≡ₚ x :: l.
Proof.
  induction l as [|y l IH]; simpl; [done|].
  destruct (x <? y)%float; [done|]. rewrite IH. apply Permutation_swap.
Qed.

Lemma sort_perm l : sort l ≡ₚ l.
Proof.
  induction l as [|x l IH]; simpl; [done|].
  unfold sort in *. simpl. rewrite insert_perm. by rewrite IH.
Qed.

Lemma sort_length l : length (sort l) = length l.
Proof. by rewrite sort_perm. Qed.

Lemma sort_Forall (P : float -> Prop) l : Forall P (sort l) <-> Forall P l.
Proof. by rewrite sort_perm. Qed.

(** ** A call on finite data returns *)

Lemma body_finite xvec Tol st :
  Forall finite xvec -> exists v, body xvec Tol st = Done v.
Proof.
  intros Hfin. unfold body. destruct (range st <=? Tol)%float; [by eexists|].
  destruct (derivatives_finite xvec [] (M st) (0, 0)%float Hfin) as [[T U] ->].
  simpl. destruct (abs (T / U) <? Tol)%float; by eexists.
Qed.

Lemma iterate_finite xvec Tol : forall fuel Iter st,
  Forall finite xvec -> exists rn, iterate fuel Iter xvec Tol st = Done rn.
Proof.
  induction fuel as [|fuel IH]; intros Iter st Hfin; [by eexists|].
  rewrite iterate_S. destruct (body_finite xvec Tol st Hfin) as [v ->]. simpl.
  destruct v as [| |st']; try by eexists.
  destruct (IH (S Iter) st' Hfin) as [rn ->]. by eexists.
Qed.

Lemma get_lt (buf : list float) i :
  (i < length buf)%nat -> exists v, get buf i = Done v /\ buf !! i = Some v.
Proof.
  intros Hi. destruct (lookup_lt_is_Some_2 _ _ Hi) as [v Hv].
  exists v. unfold get. by rewrite Hv.
Qed.

Lemma seed_nonempty xvec :
  (0 < length xvec)%nat -> exists M0, seed xvec = Done M0.
Proof.
  intros Hlen. unfold seed.
  assert (length xvec / 2 < length xvec)%nat as Hmid
    by (apply Nat.div_lt; lia).
  destruct (get_lt xvec _ Hmid) as (M0 & HM0 & _). rewrite HM0.
  destruct (Nat.even (length xvec)) eqn:Heven; [|by eexists].
  destruct (length xvec / 2)%nat as [|i] eqn:Hd.
  - exfalso. destruct (length xvec) as [|[|l]]; [lia|done|].
    apply Nat.div_small_iff in Hd; lia.
  - destruct (get_lt xvec i ltac:(lia)) as (lo & Hlo & _). rewrite Hlo.
    by eexists.
Qed.

Lemma start_nonempty xvec :
  (0 < length xvec)%nat -> exists st, start xvec = Done st.
Proof.
  intros Hlen. unfold start.
  destruct (seed_nonempty xvec Hlen) as [M0 ->].
  destruct (get_lt xvec 0 Hlen) as (a0 & Ha & _). rewrite Ha.
  destruct (length xvec) as [|i] eqn:Hl; [lia|].
  destruct (get_lt xvec i ltac:(lia)) as (b0 & Hb & _). rewrite Hb.
  by eexists.
Qed.

Lemma smooth_finite xs Tol :
  (0 < length xs)%nat -> Forall finite xs -> exists rn, smooth xs Tol = Done rn.
Proof.
  intros Hlen Hfin. unfold smooth.
  destruct (start_nonempty (sort xs)) as [st Hst]; [by rewrite sort_length|].
  rewrite Hst. apply iterate_finite. by apply sort_Forall.
Qed.

Lemma push_back_spec (P : float -> Prop) x dim m n k : forall js,
  Forall P x ->
  Forall (fun j => ((if (dim =? 1)%Z then k * m + j else j * n + k) < length x)%nat) js ->
  exists xs, push_back x dim m n k js = Done xs /\
             length xs = length js /\ Forall P xs.
Proof.
  intros js HP. induction js as [|j js IH]; intros Hjs; simpl.
  { by exists []. }
  apply Forall_cons_1 in Hjs as [Hj Hjs].
  destruct (get_lt x _ Hj) as (v & Hg & Hv). rewrite Hg.
  destruct (IH Hjs) as (xs & Hxs' & Hlen & Hxs). simpl. rewrite Hxs'. simpl.
  exists (v :: xs). split_and!; [done|simpl; lia|].
  constructor; [|done]. by eapply (Forall_lookup_1 _ _ _ _ HP).
Qed.

Lemma gather_spec (P : float -> Prop) x dim m n k :
  length x = (m * n)%nat -> (k < n)%nat -> Forall P x ->
  exists xs, gather x dim m n k = Done xs /\ length xs = m /\ Forall P xs.
Proof.
  intros Hlen Hk HP. unfold gather.
  destruct (push_back_spec P x dim m n k (seq 0 m) HP) as (xs & Hxs & Hl & Hall).
  { apply Forall_forall. intros j Hj%elem_of_seq.
    destruct (dim =? 1)%Z; nia. }
  exists xs. rewrite length_seq in Hl. done.
Qed.

Lemma vectors_finite x dim m n Tol : forall ks,
  length x = (m * n)%nat -> (0 < m)%nat -> Forall finite x ->
  Forall (fun k => (k < n)%nat) ks ->
  exists rns, vectors x dim m n Tol ks = Done rns.
Proof.
  intros ks Hlen Hm Hfin. induction ks as [|k ks IH]; intros Hks; simpl.
  { by eexists. }
  apply Forall_cons_1 in Hks as [Hk Hks].
  destruct (gather_spec finite x dim m n k Hlen Hk Hfin) as (xs & Hg & Hl & Hxs).
  rewrite Hg.
  destruct (smooth_finite xs Tol) as [rn Hrn]; [lia|done|]. simpl. rewrite Hrn.
  destruct (IH Hks) as [rns Hrns]. simpl. rewrite Hrns. by eexists.
Qed.

(** X3.  A call on an array that is not empty and holds finite values
    only, with a valid [dim] and a readable [Tol] if any, returns: no
    error is raised, whatever warnings are printed, and the result has one
    estimate per row or column. *)
Theorem finite_input_returns (x : mxArray) (opt : list mxArray) :
  well_formed x -> Forall finite (pr x) -> valid_dim opt ->
  (exists Tol, requested_Tol opt = Done Tol) ->
  exists dim n rns,
    mexFunction_trace (x :: opt) = Done (dim, n, rns) /\
    mexFunction (x :: opt) = Done (plhs0 dim n rns, warnings 0 rns) /\
    length rns = n /\ n = snd (extent x dim).
Proof.
  intros (Hlen & H0 & H1) Hfin Hv [Tol HTol].
  assert (exists d, requested_dim opt = Done d /\
                    negb (d =? 1)%Z && negb (d =? 2)%Z = false) as (d & Hd & Hok).
  { destruct Hv as [Hv|Hv]; eexists; (split; [exact Hv|done]). }
  set (dim := if (sz0 x =? 1)%nat then 2%Z else d).
  assert (exists rns, vectors (pr x) dim (fst (extent x dim)) (snd (extent x dim))
                        Tol (seq 0 (snd (extent x dim))) = Done rns) as [rns Hrns].
  { apply vectors_finite; try done.
    - unfold extent. destruct (dim =? 1)%Z; simpl; lia.
    - unfold extent. destruct (dim =? 1)%Z; simpl; lia.
    - apply Forall_forall. intros k Hk%elem_of_seq. lia. }
  assert (mexFunction_trace (x :: opt) = Done (dim, snd (extent x dim), rns)) as Ht.
  { rewrite mexFunction_trace_unfold, Hd. simpl. rewrite Hok, HTol. simpl.
    fold dim. destruct (extent x dim) as [m n] eqn:He. simpl in Hrns.
    rewrite Hrns. done. }
  exists dim, (snd (extent x dim)), rns. split_and!; try done.
  - by rewrite mexFunction_unfold, Ht.
  - apply trace_vectors in Ht as (T & _ & _ & Hvec).
    apply vectors_spec in Hvec as [Hl _]. by rewrite length_seq in Hl.
Qed.

Lemma finite_input_returns_witness :
  exists dim n rns,
    mexFunction_trace (slow_x :: slow_opt) = Done (dim, n, rns) /\
    mexFunction (slow_x :: slow_opt) = Done (plhs0 dim n rns, warnings 0 rns) /\
    length rns = n /\ n = snd (extent slow_x dim).
Proof.
  apply (finite_input_returns slow_x slow_opt).
  - unfold well_formed. simpl. lia.
  - repeat constructor.
  - right. reflexivity.
  - eexists. reflexivity.
Defined.

(** ** Symmetric data *)

(** On the symmetric data [[1 2 3 4 5]] the smoothed median is the
    ordinary median 3. *)
Example symmetric_data :
  mexFunction [rowv [1; 2; 3; 4; 5]%float] = Done (scalar 3, []).
Proof. vm_compute. done. Qed.

(** ** The order of the numbers *)


Lemma SFcompare_key f1 f2 :
  f1 <> S754_nan -> f2 <> S754_nan ->
  SFcompare f1 f2 = Some (lex (key f1) (key f2)).
Proof.
  intros H1 H2.
  destruct f1 as [[]|[]| |[] m1 e1], f2 as [[]|[]| |[] m2 e2]; try done; simpl.
  rewrite Z.compare_opp, (Z.compare_antisym e1 e2).
  by destruct (e1 ?= e2)%Z.
Qed.

Lemma lex_le_trans k1 k2 k3 :
  lex k1 k2 <> Gt -> lex k2 k3 <> Gt -> lex k1 k3 <> Gt.
Proof.
  destruct k1 as [[c1 e1] m1], k2 as [[c2 e2] m2], k3 as [[c3 e3] m3]. unfold lex.
  destruct (Z.compare_spec c1 c2), (Z.compare_spec c2 c3), (Z.compare_spec c1 c3);
    try done; try lia;
  destruct (Z.compare_spec e1 e2), (Z.compare_spec e2 e3), (Z.compare_spec e1 e3);
    try done; try lia;
  destruct (Z.compare_spec m1 m2), (Z.compare_spec m2 m3), (Z.compare_spec m1 m3);
    try done; try lia.
Qed.

Lemma lex_antisym k1 k2 : lex k2 k1 = CompOpp (lex k1 k2).
Proof.
  destruct k1 as [[c1 e1] m1], k2 as [[c2 e2] m2]. unfold lex.
  rewrite (Z.compare_antisym c1 c2), (Z.compare_antisym e1 e2), (Z.compare_antisym m1 m2).
  destruct (c1 ?= c2)%Z, (e1 ?= e2)%Z, (m1 ?= m2)%Z; done.
Qed.

Lemma lex_refl k : lex k k = Eq.
Proof. destruct k as [[c e] m]. unfold lex. by rewrite !Z.compare_refl. Qed.

Lemma number_spec v : number v <-> Prim2SF v <> S754_nan.
Proof.
  unfold number, is_nan. rewrite FloatAxioms.eqb_spec. unfold SFeqb.
  destruct (Prim2SF v) as [[]|[]| |[] m e] eqn:Hv; simpl; try (split; done).
  - rewrite Z.compare_refl, Pos.compare_cont_refl. simpl. split; done.
  - rewrite Z.compare_refl, Pos.compare_cont_refl. simpl. split; done.
Qed.

Lemma fle_key p q :
  fle p q <-> number p /\ number q /\ lex (key (Prim2SF p)) (key (Prim2SF q)) <> Gt.
Proof.
  unfold fle. rewrite leb_spec, !number_spec. unfold SFleb. split.
  - intros H.
    assert (Prim2SF p <> S754_nan) as Hp.
    { intros Hp. rewrite Hp in H. done. }
    assert (Prim2SF q <> S754_nan) as Hq.
    { intros Hq. rewrite Hq in H. by destruct (Prim2SF p). }
    rewrite (SFcompare_key _ _ Hp Hq) in H. split_and!; try done.
    by destruct (lex _ _).
  - intros (Hp & Hq & H). rewrite (SFcompare_key _ _ Hp Hq).
    by destruct (lex _ _).
Qed.

Lemma ltb_key p q :
  (p <? q)%float = true <->
  number p /\ number q /\ lex (key (Prim2SF p)) (key (Prim2SF q)) = Lt.
Proof.
  rewrite ltb_spec, !number_spec. unfold SFltb. split.
  - intros H.
    assert (Prim2SF p <> S754_nan) as Hp.
    { intros Hp. rewrite Hp in H. done. }
    assert (Prim2SF q <> S754_nan) as Hq.
    { intros Hq. rewrite Hq in H. by destruct (Prim2SF p). }
    rewrite (SFcompare_key _ _ Hp Hq) in H. split_and!; try done.
    by destruct (lex _ _).
  - intros (Hp & Hq & H). rewrite (SFcompare_key _ _ Hp Hq). by rewrite H.
Qed.

Lemma fle_number p q : fle p q -> number p /\ number q.
Proof. intros (? & ? & _)%fle_key. done. Qed.

Lemma fle_refl p : number p -> fle p p.
Proof. intros Hp. apply fle_key. split_and!; try done. by rewrite lex_refl. Qed.

Lemma fle_trans p q r : fle p q -> fle q r -> fle p r.
Proof.
  intros (Hp & Hq & H1)%fle_key (_ & Hr & H2)%fle_key. apply fle_key.
  split_and!; try done. by eapply lex_le_trans.
Qed.

Lemma ltb_fle p q : (p <? q)%float = true -> fle p q.
Proof.
  intros (Hp & Hq & H)%ltb_key. apply fle_key. split_and!; try done. by rewrite H.
Qed.

Lemma not_ltb_fle p q :
  number p -> number q -> (p <? q)%float = false -> fle q p.
Proof.
  intros Hp Hq H. apply fle_key. split_and!; try done.
  rewrite lex_antisym. intros Hgt.
  assert ((p <? q)%float = true); [|congruence].
  apply ltb_key. split_and!; try done.
  destruct (lex (key (Prim2SF p)) (key (Prim2SF q))); simpl in Hgt; congruence.
Qed.

Lemma between_number lo v hi : between lo v hi -> number v.
Proof. intros [H _]. by destruct (fle_number _ _ H). Qed.

(** ** The sorted vector *)

Lemma insert_sorted x l :
  number x -> Forall number l ->
  StronglySorted fle l -> StronglySorted fle (insert x l).
Proof.
  intros Hx Hl Hs. induction Hs as [|y l Hs IH Hy]; simpl.
  { repeat constructor. }
  apply Forall_cons_1 in Hl as [Hny Hl].
  destruct (x <? y)%float eqn:Hlt.
  - constructor; [by constructor|].
    constructor; [by apply ltb_fle|].
    eapply Forall_impl; [exact Hy|]. intros z Hz. simpl in Hz.
    eapply fle_trans; [by apply ltb_fle|done].
  - constructor; [by apply IH|].
    rewrite insert_perm. constructor; [|done].
    by apply not_ltb_fle.
Qed.

Lemma sort_sorted l : Forall number l -> StronglySorted fle (sort l).
Proof.
  induction l as [|x l IH]; intros Hl; [constructor|].
  apply Forall_cons_1 in Hl as [Hx Hl]. unfold sort in *. simpl.
  apply insert_sorted; [done| |by apply IH].
  by apply sort_Forall.
Qed.

Lemma sorted_lookup_le (l : list float) (i j : nat) x y :
  Forall number l -> StronglySorted fle l ->
  l !! i = Some x -> l !! j = Some y -> (i <= j)%nat -> fle x y.
Proof.
  intros Hn Hs. revert i j. induction Hs as [|z l Hs IH Hz]; intros i j Hi Hj Hle; [done|].
  apply Forall_cons_1 in Hn as [Hnz Hn].
  destruct i as [|i], j as [|j]; simpl in *; try lia.
  - injection Hi as <-. injection Hj as <-. by apply fle_refl.
  - injection Hi as <-. apply list_elem_of_lookup_2 in Hj.
    rewrite Forall_forall in Hz. by apply Hz.
  - apply (IH Hn i j); try done. lia.
Qed.

Lemma get_Done (buf : list float) i v : get buf i = Done v <-> buf !! i = Some v.
Proof.
  unfold get. destruct (buf !! i); split; try done; by intros [= ->].
Qed.

Lemma seed_spec xvec M0 :
  seed xvec = Done M0 ->
  exists hi, xvec !! (length xvec / 2)%nat = Some hi /\
    if Nat.even (length xvec)
    then exists lo, xvec !! (length xvec / 2 - 1)%nat = Some lo /\
                    (0 < length xvec / 2)%nat /\
                    M0 = ((hi + lo) * 0.5)%float
    else M0 = hi.
Proof.
  unfold seed, mbind, result_bind.
  destruct (get xvec (length xvec / 2)) as [hi| |] eqn:Hhi; [|done..].
  apply get_Done in Hhi. intros H. exists hi. split; [done|].
  destruct (Nat.even (length xvec)).
  - destruct (length xvec / 2)%nat as [|i] eqn:Hd; [done|].
    destruct (get xvec i) as [lo| |] eqn:Hlo; [|done..].
    injection H as <-. apply get_Done in Hlo. exists lo.
    replace (S i - 1)%nat with i by lia. split_and!; try done. lia.
  - by injection H as <-.
Qed.

Lemma start_spec xvec st :
  start xvec = Done st ->
  seed xvec = Done (M st) /\
  xvec !! 0%nat = Some (a st) /\ xvec !! (length xvec - 1)%nat = Some (b st) /\
  range st = (b st - a st)%float.
Proof.
  unfold start, mbind, result_bind.
  destruct (seed xvec) as [M0| |]; [|done..].
  destruct (get xvec 0) as [a0| |] eqn:Ha; [|done..].
  destruct (length xvec) as [|i] eqn:Hl; [done|].
  destruct (get xvec i) as [b0| |] eqn:Hb; [|done..].
  intros [= <-]. simpl. apply get_Done in Ha, Hb.
  replace (i - 0)%nat with i by lia. done.
Qed.

(** ** The seed *)

Lemma start_of_sorted (xs : list float) :
  xs <> [] -> Forall number xs ->
  exists st,
    start (sort xs) = Done st /\
    sort xs ≡ₚ xs /\ StronglySorted fle (sort xs) /\
    sort xs !! 0%nat = Some (a st) /\
    sort xs !! (length xs - 1)%nat = Some (b st) /\
    (forall v, v ∈ xs -> between (a st) v (b st)) /\
    range st = (b st - a st)%float /\
    exists hi,
      sort xs !! (length xs / 2)%nat = Some hi /\
      if Nat.even (length xs)
      then exists lo, sort xs !! (length xs / 2 - 1)%nat = Some lo /\
                      fle lo hi /\ M st = ((hi + lo) * 0.5)%float
      else M st = hi /\ between (a st) (M st) (b st).
Proof.
  intros Hne Hnum.
  assert (0 < length xs)%nat as Hlen by (destruct xs; [done|simpl; lia]).
  destruct (start_nonempty (sort xs)) as [st Hst]; [by rewrite sort_length|].
  pose proof (sort_sorted xs Hnum) as Hsorted.
  assert (Forall number (sort xs)) as Hnum' by (by apply sort_Forall).
  destruct (start_spec _ _ Hst) as (Hseed & Ha & Hb & Hrange).
  rewrite sort_length in Hb.
  destruct (seed_spec _ _ Hseed) as (hi & Hhi & Hmid). rewrite sort_length in Hhi, Hmid.
  assert (length xs / 2 < length xs)%nat as Hh by (apply Nat.div_lt; lia).
  exists st. split_and!; try done.
  { apply sort_perm. }
  { intros v Hv. rewrite <- (sort_perm xs) in Hv.
    apply list_elem_of_lookup_1 in Hv as [i Hi].
    pose proof (lookup_lt_Some _ _ _ Hi) as Hil. rewrite sort_length in Hil.
    split.
    - eapply (sorted_lookup_le (sort xs) 0 i); try done. lia.
    - eapply (sorted_lookup_le (sort xs) i (length xs - 1)); try done. lia. }
  exists hi. split; [done|].
  destruct (Nat.even (length xs)).
  - destruct Hmid as (lo & Hlo & Hpos & HM). exists lo. split_and!; try done.
    eapply (sorted_lookup_le (sort xs) (length xs / 2 - 1) (length xs / 2)); try done. lia.
  - split; [done|]. rewrite Hmid. split.
    + eapply (sorted_lookup_le (sort xs) 0 (length xs / 2)); try done. lia.
    + eapply (sorted_lookup_le (sort xs) (length xs / 2) (length xs - 1)); try done. lia.
Qed.


(** ** Commutativity *)

Lemma add_comm (p q : float) : (p + q = q + p)%float.
Proof.
  apply Prim2SF_inj. rewrite !add_spec. unfold SF64add, SFadd.
  destruct (Prim2SF p) as [[]|[]| |s1 m1 e1], (Prim2SF q) as [[]|[]| |s2 m2 e2]; try done.
  cbv zeta. rewrite (Z.min_comm e2 e1). f_equal. apply Z.add_comm.
Qed.

Lemma mul_comm (p q : float) : (p * q = q * p)%float.
Proof.
  apply Prim2SF_inj. rewrite !mul_spec. unfold SF64mul, SFmul.
  destruct (Prim2SF p) as [[]|[]| |s1 m1 e1], (Prim2SF q) as [[]|[]| |s2 m2 e2]; try done;
    try (by destruct s1); try (by destruct s2).
  by rewrite (xorb_comm s2 s1), (Pos.mul_comm m2 m1), (Z.add_comm e2 e1).
Qed.

(** ** The estimate and the bracket *)

Lemma between_dec lo v hi : between lo v hi \/ ~ between lo v hi.
Proof.
  unfold between, fle.
  destruct (lo <=? v)%float, (v <=? hi)%float; try (by left); right; by intros [? ?].
Qed.

Lemma body_bracketed lo hi xvec Tol st st' :
  bracketed lo hi st -> body xvec Tol st = Done (Next st') ->
  bracketed lo hi st' \/ mean_escapes lo hi.
Proof.
  intros (Hlo & [HaM HMb] & Hhi). unfold body.
  destruct (range st <=? Tol)%float; [done|].
  destruct (derivatives [] xvec (M st) (0, 0)%float) as [[T U]| |]; simpl; try done.
  destruct (abs (T / U) <? Tol)%float; [done|].
  intros [= <-].
  set (a' := if (T / U <? 0)%float then M st else a st).
  set (b' := if (T / U <? 0)%float then b st
             else if (0 <? T / U)%float then M st else b st).
  assert (fle lo a' /\ fle a' b' /\ fle b' hi) as (Hlo' & Hab & Hhi').
  { subst a' b'. destruct (T / U <? 0)%float.
    - split_and!; try done. by eapply fle_trans.
    - destruct (0 <? T / U)%float; split_and!; try done.
      + by eapply fle_trans.
      + by eapply fle_trans. }
  destruct ((a' <? M st - T / U)%float && (M st - T / U <? b')%float) eqn:Hc.
  - left. apply andb_prop in Hc as [H1 H2].
    unfold bracketed, between. simpl.
    split_and!; try done; by apply ltb_fle.
  - destruct (between_dec a' (0.5 * (a' + b'))%float b') as [Hin|Hout].
    + left. unfold bracketed. simpl. done.
    + right. exists a', b'. split_and!; try done.
      * split; [done|]. by eapply fle_trans.
      * split; [|done]. by eapply fle_trans.
Qed.

Lemma iterate_bracketed lo hi xvec Tol : forall fuel Iter st rn,
  bracketed lo hi st -> iterate fuel Iter xvec Tol st = Done rn ->
  between lo (estimate rn) hi \/ mean_escapes lo hi.
Proof.
  assert (forall st, bracketed lo hi st -> between lo (M st) hi) as Hin.
  { intros st (Hlo & [HaM HMb] & Hhi). split; by eapply fle_trans. }
  induction fuel as [|fuel IH]; intros Iter st rn Hst.
  { intros [= <-]. left. by apply Hin. }
  rewrite iterate_S. destruct (body xvec Tol st) as [[| |st']| |] eqn:Hbody; try done.
  - intros [= <-]. left. by apply Hin.
  - intros [= <-]. left. by apply Hin.
  - unfold mbind, result_bind.
    destruct (iterate fuel (S Iter) xvec Tol st') as [rn'| |] eqn:Hit; try done.
    intros [= <-]. simpl.
    destruct (body_bracketed lo hi _ _ _ _ Hst Hbody) as [Hst'|Hesc]; [|by right].
    by eapply IH.
Qed.

(** X11.  The estimate leaves the range of the data only through a mean.
    For a vector without NaN whose run returns, with [lo] its smallest and
    [hi] its largest value: the estimate stored lies within [[lo, hi]],
    unless there are [p <= q] within [[lo, hi]] whose computed mean
    [0.5 * (p + q)] is not within [[p, q]].  The Newton value is never the
    cause: it is taken only strictly inside the bracket. *)
Theorem estimate_leaves_range_only_by_mean (xs : list float) (Tol : option float)
  (rn : run) :
  Forall number xs -> smooth xs Tol = Done rn ->
  exists lo hi,
    lo ∈ xs /\ hi ∈ xs /\ (forall v, v ∈ xs -> between lo v hi) /\
    (between lo (estimate rn) hi \/ mean_escapes lo hi).
Proof.
  intros Hnum Hsm.
  apply smooth_iterate in Hsm as (st & tol & Hst & _ & Hit).
  assert (xs <> []) as Hne.
  { intros ->. done. }
  destruct (start_of_sorted xs Hne Hnum)
    as (st' & Hst' & Hperm & Hsorted & Ha & Hb & Hall & _ & hi & Hhi & Hmid).
  rewrite Hst in Hst'. injection Hst' as <-.
  assert (forall i v, sort xs !! i = Some v -> v ∈ xs) as Hin.
  { intros i v Hi. rewrite <- Hperm. by eapply list_elem_of_lookup_2. }
  exists (a st), (b st). split_and!; try done; try by eapply Hin.
  assert (number (a st)) as Hna.
  { rewrite Forall_forall in Hnum. eapply Hnum, Hin, Ha. }
  assert (number (b st)) as Hnb.
  { rewrite Forall_forall in Hnum. eapply Hnum, Hin, Hb. }
  assert (between (a st) (M st) (b st) \/ mean_escapes (a st) (b st)) as [HM|Hesc];
    [|eapply (iterate_bracketed (a st) (b st)); [|exact Hit];
      split_and!; [by apply fle_refl|done|by apply fle_refl] | by right].
  destruct (Nat.even (length xs)).
  - destruct Hmid as (lo & Hlo & Hle & HM).
    pose proof (Hall lo (Hin _ _ Hlo)) as Hblo.
    pose proof (Hall hi (Hin _ _ Hhi)) as Hbhi.
    assert (M st = (0.5 * (lo + hi))%float) as HM'.
    { rewrite HM, mul_comm. f_equal. apply add_comm. }
    destruct (between_dec lo (M st) hi) as [[H1 H2]|Hout].
    + left. split; eapply fle_trans; try done; [apply Hblo|apply Hbhi].
    + right. exists lo, hi. rewrite <- HM'. done.
  - left. apply Hmid.
Qed.


Lemma estimate_leaves_range_only_by_mean_witness :
  exists lo hi,
    lo ∈ pr slow_x /\ hi ∈ pr slow_x /\
    (forall v, v ∈ pr slow_x -> between lo v hi) /\
    (between lo (estimate slow_run) hi \/ mean_escapes lo hi).
Proof.
  apply (estimate_leaves_range_only_by_mean (pr slow_x) (Some 0%float) slow_run).
  - repeat constructor.
  - vm_compute. reflexivity.
Defined.

(** ** A tolerance that is not a number *)

Lemma nan_leb p q : is_nan q = true -> (p <=? q)%float = false.
Proof.
  intros Hq. destruct (p <=? q)%float eqn:H; [|done].
  destruct (fle_number p q H) as [_ Hn]. unfold number in Hn. congruence.
Qed.

Lemma nan_ltb p q : is_nan q = true -> (p <? q)%float = false.
Proof.
  intros Hq. destruct (p <? q)%float eqn:H; [|done].
  apply ltb_key in H as (_ & Hn & _). unfold number in Hn. congruence.
Qed.

Lemma body_nan_tol xvec Tol st :
  Forall finite xvec -> is_nan Tol = true ->
  exists st', body xvec Tol st = Done (Next st').
Proof.
  intros Hfin Hnan. unfold body. rewrite (nan_leb _ _ Hnan).
  destruct (derivatives_finite xvec [] (M st) (0, 0)%float Hfin) as [[T U] ->].
  simpl. rewrite (nan_ltb _ _ Hnan). by eexists.
Qed.

Lemma advance_nan_tol xvec Tol :
  Forall finite xvec -> is_nan Tol = true ->
  forall k st, exists st', advance xvec Tol k st = Done (Some st').
Proof.
  intros Hfin Hnan. induction k as [|k IH]; intros st; [by eexists|].
  simpl advance. destruct (body_nan_tol xvec Tol st Hfin Hnan) as [st1 ->]. simpl.
  apply IH.
Qed.

(** X12.  A tolerance that is NaN meets neither criterion: on a vector
    of finite values every one of the 20 passes computes the derivatives
    and goes on, the loop runs out, and the warning is printed. *)
Theorem nan_tolerance_exhausts (xs : list float) (Tol : float) :
  xs <> [] -> Forall finite xs -> is_nan Tol = true ->
  exists rn,
    smooth xs (Some Tol) = Done rn /\
    stopped rn = Exhausted /\ entered rn = 20%nat /\ passes rn = 20%nat /\
    warned rn = true.
Proof.
  intros Hne Hfin Hnan.
  assert (0 < length xs)%nat as Hlen by (destruct xs; [done|simpl; lia]).
  destruct (start_nonempty (sort xs)) as [st Hst]; [by rewrite sort_length|].
  assert (Forall finite (sort xs)) as Hfin' by (by apply sort_Forall).
  destruct (advance_nan_tol (sort xs) Tol Hfin' Hnan (S MaxIter) st) as [st' Hadv].
  pose proof (advance_iterate (sort xs) Tol (S MaxIter) 0 st st' eq_refl ltac:(lia) Hadv) as Hit.
  eexists. split.
  - unfold smooth. rewrite Hst. exact Hit.
  - done.
Qed.

Lemma nan_tolerance_exhausts_witness :
  exists rn,
    smooth [1; 2; 4]%float (Some nan) = Done rn /\
    stopped rn = Exhausted /\ entered rn = 20%nat /\ passes rn = 20%nat /\
    warned rn = true.
Proof.
  apply (nan_tolerance_exhausts [1; 2; 4]%float nan).
  - discriminate.
  - repeat constructor.
  - reflexivity.
Defined.

(** ** Rows and columns *)


Lemma get_transpose x j k :
  well_formed x -> (j < sz1 x)%nat -> (k < sz0 x)%nat ->
  get (pr (transpose x)) (k * sz1 x + j) = get (pr x) (j * sz0 x + k).
Proof.
  intros (Hlen & H0 & H1) Hj Hk. unfold get, transpose. simpl.
  rewrite list_lookup_fmap, lookup_seq_lt by nia. simpl.
  replace ((k * sz1 x + j) mod sz1 x)%nat with j.
  2:{ rewrite Nat.add_comm, Nat.Div0.mod_add. symmetry. by apply Nat.mod_small. }
  replace ((k * sz1 x + j) / sz1 x)%nat with k.
  2:{ rewrite Nat.add_comm, Nat.div_add by lia. rewrite Nat.div_small by done. done. }
  destruct (lookup_lt_is_Some_2 (pr x) (j * sz0 x + k)) as [v Hv]; [nia|].
  rewrite Hv. by rewrite (nth_lookup_Some _ _ _ _ Hv).
Qed.

Lemma push_back_transpose x k :
  well_formed x -> (k < sz0 x)%nat -> forall js,
  Forall (fun j => (j < sz1 x)%nat) js ->
  push_back (pr (transpose x)) 1 (sz1 x) (sz0 x) k js =
  push_back (pr x) 2 (sz1 x) (sz0 x) k js.
Proof.
  intros Hwf Hk. induction js as [|j js IH]; intros Hjs; [done|].
  apply Forall_cons_1 in Hjs as [Hj Hjs]. cbn [push_back].
  change (1 =? 1)%Z with true. change (2 =? 1)%Z with false. cbv iota.
  rewrite (get_transpose x j k Hwf Hj Hk), (IH Hjs). done.
Qed.

Lemma vectors_transpose x Tol :
  well_formed x -> forall ks, Forall (fun k => (k < sz0 x)%nat) ks ->
  vectors (pr (transpose x)) 1 (sz1 x) (sz0 x) Tol ks =
  vectors (pr x) 2 (sz1 x) (sz0 x) Tol ks.
Proof.
  intros Hwf. induction ks as [|k ks IH]; intros Hks; [done|].
  apply Forall_cons_1 in Hks as [Hk Hks]. cbn [vectors]. unfold gather.
  rewrite (push_back_transpose x k Hwf Hk).
  2:{ apply Forall_forall. intros j Hj%elem_of_seq. lia. }
  by rewrite (IH Hks).
Qed.

Lemma requested_dim_scalar (d : float) rest :
  requested_dim (scalar d :: rest) = to_short d.
Proof. reflexivity. Qed.

(** X13.  Rows are the columns of the transposed array.  For an array
    that is not empty, holds [sz[0] * sz[1]] values and has more than one
    column, the call on [x] with [dim = 2] and the call on the transposed
    array with [dim = 1] give the same estimates and the same warnings,
    or fail alike, whatever the remaining arguments. *)
Theorem rows_are_columns_of_transpose (x : mxArray) (rest : list mxArray) :
  well_formed x -> sz1 x <> 1%nat ->
  values_of (mexFunction (transpose x :: scalar 1 :: rest)) =
  values_of (mexFunction (x :: scalar 2 :: rest)).
Proof.
  intros Hwf H1.
  rewrite !mexFunction_unfold, !mexFunction_trace_unfold.
  rewrite !requested_dim_scalar.
  change (to_short 1) with (Done 1%Z). change (to_short 2) with (Done 2%Z).
  change (requested_Tol (scalar 1 :: rest)) with (requested_Tol (scalar 2 :: rest)).
  unfold values_of, mbind, result_bind. cbv beta iota.
  cbn [Z.eqb Pos.eqb negb andb].
  destruct (requested_Tol (scalar 2 :: rest)) as [Tol| |]; try done.
  cbv zeta.
  change (sz0 (transpose x)) with (sz1 x).
  destruct (Nat.eqb_spec (sz1 x) 1) as [|_]; [done|].
  replace (if (sz0 x =? 1)%nat then 2%Z else 2%Z) with 2%Z by (by destruct (sz0 x =? 1)%nat).
  unfold extent. cbn [Z.eqb Pos.eqb].
  change (sz0 (transpose x)) with (sz1 x). change (sz1 (transpose x)) with (sz0 x).
  rewrite (vectors_transpose x Tol Hwf).
  2:{ apply Forall_forall. intros k Hk%elem_of_seq. lia. }
  destruct (vectors (pr x) 2 (sz1 x) (sz0 x) Tol (seq 0 (sz0 x))) as [rns| |]; done.
Qed.

Lemma rows_are_columns_of_transpose_witness :
  values_of (mexFunction [transpose two_by_three; scalar 1]) =
  values_of (mexFunction [two_by_three; scalar 2]).
Proof.
  apply (rows_are_columns_of_transpose two_by_three []).
  - unfold well_formed. simpl. lia.
  - simpl. lia.
Defined.

(** ** The result and the warnings *)




(** ** A vector of equal values *)








(** ** A [dim] with a fraction *)

Lemma digits2_pos_bound (p : positive) :
  (2 ^ (Z.pos (digits2_pos p) - 1) <= Z.pos p < 2 ^ Z.pos (digits2_pos p))%Z.
Proof.
  induction p as [p IH|p IH|]; cbn [digits2_pos].
  - rewrite Pos2Z.inj_succ.
    replace (Z.succ (Z.pos (digits2_pos p)) - 1)%Z
      with (Z.succ (Z.pos (digits2_pos p) - 1))%Z by lia.
    rewrite !Z.pow_succ_r by lia.
    set (u := (2 ^ (Z.pos (digits2_pos p) - 1))%Z) in *.
    set (w := (2 ^ Z.pos (digits2_pos p))%Z) in *. lia.
  - rewrite Pos2Z.inj_succ.
    replace (Z.succ (Z.pos (digits2_pos p)) - 1)%Z
      with (Z.succ (Z.pos (digits2_pos p) - 1))%Z by lia.
    rewrite !Z.pow_succ_r by lia.
    set (u := (2 ^ (Z.pos (digits2_pos p) - 1))%Z) in *.
    set (w := (2 ^ Z.pos (digits2_pos p))%Z) in *. lia.
  - split; reflexivity.
Qed.

(** A finite binary64 number with exponent above the least one has a
    mantissa of 53 digits. *)
Lemma normal_mantissa (f : float) s mant e :
  Prim2SF f = S754_finite s mant e -> (-1074 < e)%Z ->
  (4503599627370496 <= Z.pos mant < 9007199254740992)%Z.
Proof.
  intros Hf He. pose proof (Prim2SF_valid f) as Hvalid. rewrite Hf in Hvalid.
  unfold valid_binary, bounded, canonical_mantissa, fexp, emin in Hvalid.
  apply andb_prop in Hvalid as [Hcanon _]. apply Z.eqb_eq in Hcanon.
  unfold prec, emax in Hcanon.
  assert (Z.pos (digits2_pos mant) = 53)%Z as Hd by lia.
  pose proof (digits2_pos_bound mant) as Hdig. rewrite Hd in Hdig. exact Hdig.
Qed.

Lemma lex_same c e1 m1 e2 m2 :
  lex (c, e1, m1) (c, e2, m2) =
    match (e1 ?= e2)%Z with Eq => (m1 ?= m2)%Z | o => o end.
Proof. unfold lex. by rewrite Z.compare_refl. Qed.

Lemma to_short_1 (d : float) :
  (1 <=? d)%float = true -> (d <? 2)%float = true -> to_short d = Done 1%Z.
Proof.
  intros (_ & _ & Hlo)%fle_key (_ & _ & Hhi)%ltb_key.
  change (Prim2SF 1) with (S754_finite false 4503599627370496 (-52)) in Hlo.
  change (Prim2SF 2) with (S754_finite false 4503599627370496 (-51)) in Hhi.
  unfold to_short.
  destruct (Prim2SF d) as [[]|[]| |[] mant e] eqn:Hd; try done.
  unfold key in Hlo, Hhi. rewrite lex_same in Hlo, Hhi.
  assert (-52 <= e <= -51)%Z as He.
  { destruct (Z.compare_spec (-52) e), (Z.compare_spec e (-51)); try done; lia. }
  pose proof (normal_mantissa d _ _ _ Hd ltac:(lia)) as Hm.
  assert (e = -52)%Z as ->.
  { destruct (Z.compare_spec e (-51)) as [->| |]; try done; try lia.
    destruct (Z.compare_spec (Z.pos mant) 4503599627370496); try done; lia. }
  cbv zeta.
  assert (Z.shiftl (Z.pos mant) (-52) = 1)%Z as ->; [|done].
  rewrite Z.shiftl_div_pow2 by lia.
  change (2 ^ (- -52))%Z with 4503599627370496%Z.
  symmetry. apply (Z.div_unique _ _ 1 (Z.pos mant - 4503599627370496)); lia.
Qed.

Lemma to_short_2 (d : float) :
  (d <? 2)%float = false -> (1 <=? d)%float = true -> (d <? 3)%float = true ->
  to_short d = Done 2%Z.
Proof.
  intros Hge (Hn1 & Hnd & _)%fle_key (_ & _ & Hhi)%ltb_key.
  apply not_ltb_fle in Hge; [|done|done].
  apply fle_key in Hge as (_ & _ & Hlo).
  change (Prim2SF 2) with (S754_finite false 4503599627370496 (-51)) in Hlo.
  change (Prim2SF 3) with (S754_finite false 6755399441055744 (-51)) in Hhi.
  unfold to_short.
  destruct (Prim2SF d) as [[]|[]| |[] mant e] eqn:Hd; try done.
  unfold key in Hlo, Hhi. rewrite lex_same in Hlo, Hhi.
  assert (e = -51)%Z as ->.
  { destruct (Z.compare_spec (-51) e), (Z.compare_spec e (-51)); try done; lia. }
  rewrite Z.compare_refl in Hlo, Hhi.
  assert (4503599627370496 <= Z.pos mant < 6755399441055744)%Z as Hm.
  { destruct (Z.compare_spec 4503599627370496 (Z.pos mant)),
             (Z.compare_spec (Z.pos mant) 6755399441055744); try done; lia. }
  cbv zeta.
  assert (Z.shiftl (Z.pos mant) (-51) = 2)%Z as ->; [|done].
  rewrite Z.shiftl_div_pow2 by lia.
  change (2 ^ (- -51))%Z with 2251799813685248%Z.
  symmetry. apply (Z.div_unique _ _ 2 (Z.pos mant - 4503599627370496)); lia.
Qed.

(** X15.  A [dim] with a fraction.  The conversion to [short int]
    discards the fraction: every [dim] with [1 <= dim < 3] passes the test
    of line 94, and the call does what it does for 1 when [dim < 2] and
    for 2 otherwise. *)
Theorem fractional_dim_is_truncated (x : mxArray) (d : float)
  (rest : list mxArray) :
  (1 <=? d)%float = true -> (d <? 3)%float = true ->
  requested_dim (scalar d :: rest) = Done (if (d <? 2)%float then 1 else 2)%Z /\
  mexFunction (x :: scalar d :: rest) =
    mexFunction (x :: scalar (if (d <? 2)%float then 1 else 2) :: rest).
Proof.
  intros Hlo Hhi.
  assert (to_short d = to_short (if (d <? 2)%float then 1 else 2) /\
          to_short d = Done (if (d <? 2)%float then 1 else 2)%Z) as [Heq Hd].
  { destruct (d <? 2)%float eqn:H2.
    - by rewrite (to_short_1 d Hlo H2).
    - by rewrite (to_short_2 d H2 Hlo Hhi). }
  split; [by rewrite requested_dim_scalar|].
  rewrite !mexFunction_unfold, !mexFunction_trace_unfold, !requested_dim_scalar, Heq.
  done.
Qed.

Lemma fractional_dim_is_truncated_witness :
  requested_dim (scalar 0x1.4p+1 :: [scalar 0]) =
    Done (if (0x1.4p+1 <? 2)%float then 1 else 2)%Z /\
  mexFunction (slow_x :: scalar 0x1.4p+1 :: [scalar 0]) =
    mexFunction (slow_x :: scalar (if (0x1.4p+1 <? 2)%float then 1 else 2) :: [scalar 0]).
Proof.
  apply (fractional_dim_is_truncated slow_x 0x1.4p+1%float [scalar 0]); reflexivity.
Defined.

(** ** The errors *)

Lemma get_no_raise buf i e : get buf i <> Raise e.
Proof. unfold get. by destruct (buf !! i). Qed.

Lemma start_no_raise xvec e : start xvec <> Raise e.
Proof.
  unfold start, seed, mbind, result_bind.
  destruct (get xvec (length xvec / 2)) as [M0| |] eqn:H0; try done.
  2:{ by apply get_no_raise in H0. }
  assert (forall r : result float, r <> Raise e ->
            (match r with
             | Done a => Done a | Raise e => Raise e | Undefined => Undefined
             end) <> Raise e) as Hid by (by intros [| |]).
  destruct (Nat.even (length xvec)).
  - destruct (length xvec / 2)%nat as [|i]; try done.
    destruct (get xvec i) as [lo| |] eqn:Hlo; try done.
    2:{ by apply get_no_raise in Hlo. }
    destruct (get xvec 0) as [a0| |] eqn:Ha; try done.
    2:{ by apply get_no_raise in Ha. }
    destruct (length xvec) as [|j]; try done.
    destruct (get xvec j) as [b0| |] eqn:Hb; try done.
    by apply get_no_raise in Hb.
  - destruct (get xvec 0) as [a0| |] eqn:Ha; try done.
    2:{ by apply get_no_raise in Ha. }
    destruct (length xvec) as [|j]; try done.
    destruct (get xvec j) as [b0| |] eqn:Hb; try done.
    by apply get_no_raise in Hb.
Qed.

Lemma body_raise xvec Tol st e :
  body xvec Tol st = Raise e ->
  e = NotFinite /\ Exists (fun v => is_finite v = false) xvec.
Proof.
  unfold body. destruct (range st <=? Tol)%float; [done|].
  destruct (not_all_finite xvec) as [Hfin|Hex].
  - destruct (derivatives_finite xvec [] (M st) (0, 0)%float Hfin) as [[T U] ->].
    simpl. by destruct (abs (T / U) <? Tol)%float.
  - rewrite (derivatives_not_finite _ _ _ _ Hex). simpl. by intros [= <-].
Qed.

Lemma iterate_raise xvec Tol e : forall fuel Iter st,
  iterate fuel Iter xvec Tol st = Raise e ->
  e = NotFinite /\ Exists (fun v => is_finite v = false) xvec.
Proof.
  induction fuel as [|fuel IH]; intros Iter st; [done|].
  rewrite iterate_S.
  destruct (body xvec Tol st) as [[| |st']| |] eqn:Hbody; try done.
  - unfold mbind, result_bind.
    destruct (iterate fuel (S Iter) xvec Tol st') as [rn'| |] eqn:Hit; try done.
    intros [= <-]. by eapply IH.
  - simpl. intros [= <-]. by eapply body_raise.
Qed.

Lemma smooth_raise xs Tol e :
  smooth xs Tol = Raise e ->
  e = NotFinite /\ Exists (fun v => is_finite v = false) xs.
Proof.
  unfold smooth, mbind, result_bind.
  destruct (start (sort xs)) as [st| |] eqn:Hst; try done.
  - intros [He Hex]%iterate_raise. split; [done|].
    apply Exists_exists in Hex as (v & Hv & Hnf). apply Exists_exists.
    exists v. split; [|done]. by rewrite <- (sort_perm xs).
  - by apply start_no_raise in Hst.
Qed.

Lemma push_back_elems x dim m n k e : forall js,
  push_back x dim m n k js <> Raise e /\
  forall xs, push_back x dim m n k js = Done xs -> Forall (fun v => v ∈ x) xs.
Proof.
  induction js as [|j js [IH1 IH2]]; cbn [push_back].
  { split; [done|]. by intros xs [= <-]. }
  unfold mbind, result_bind.
  destruct (get x _) as [v| |] eqn:Hg; try done.
  2:{ by apply get_no_raise in Hg. }
  destruct (push_back x dim m n k js) as [vs| |]; try done.
  split; [done|]. intros xs [= <-]. constructor; [|by apply IH2].
  apply get_Done in Hg. by eapply list_elem_of_lookup_2.
Qed.

Lemma vectors_raise x dim m n Tol e : forall ks,
  vectors x dim m n Tol ks = Raise e ->
  e = NotFinite /\ Exists (fun v => is_finite v = false) x.
Proof.
  induction ks as [|k ks IH]; [done|]. cbn [vectors]. unfold mbind, result_bind.
  destruct (gather x dim m n k) as [xs|e0|] eqn:Hg.
  - destruct (smooth xs Tol) as [rn| |] eqn:Hs.
    + by destruct (vectors x dim m n Tol ks) as [rns| |].
    + intros [= <-]. apply smooth_raise in Hs as [He Hex]. split; [done|].
      apply Exists_exists in Hex as (v & Hv & Hnf). apply Exists_exists.
      exists v. split; [|done].
      destruct (push_back_elems x dim m n k NoInput (seq 0 m)) as [_ Hall].
      specialize (Hall xs Hg). rewrite Forall_forall in Hall. by apply Hall.
    + done.
  - intros _. by destruct (push_back_elems x dim m n k e0 (seq 0 m)) as [Hn _].
  - done.
Qed.

(** X16.  The errors and their causes.  A call raises the first error
    only without arguments, the second only for a requested [dim] that
    converts to a value other than 1 and 2, and the third only when [dim]
    is valid and [x] holds a value that is not finite; reading the
    arguments, copying and sorting a vector and seeding the bracket raise
    nothing. *)
Theorem errors_and_their_causes (prhs : list mxArray) (e : mexError) :
  mexFunction prhs = Raise e ->
  match e with
  | NoInput => prhs = []
  | BadDim =>
      exists x opt d, prhs = x :: opt /\ requested_dim opt = Done d /\
                      d <> 1%Z /\ d <> 2%Z
  | NotFinite =>
      exists x opt, prhs = x :: opt /\ valid_dim opt /\
                    Exists (fun v => is_finite v = false) (pr x)
  end.
Proof.
  destruct prhs as [|x opt].
  { intros [= <-]. done. }
  rewrite mexFunction_unfold, mexFunction_trace_unfold. unfold mbind, result_bind.
  destruct (requested_dim opt) as [d| |] eqn:Hd.
  2:{ unfold requested_dim in Hd. destruct opt as [|d0 opt]; [done|].
      unfold mbind, result_bind, first_of in Hd.
      destruct (get (pr d0) 0) as [f| |] eqn:Hg.
      - unfold to_short in Hd. destruct (Prim2SF f) as [| | |s mt ex]; try done.
        cbv zeta in Hd. by destruct (_ && _).
      - by apply get_no_raise in Hg.
      - done. }
  2:{ done. }
  destruct (Z.eqb_spec d 1) as [H1|H1]; [|destruct (Z.eqb_spec d 2) as [H2|H2]]; simpl.
  3:{ intros [= <-]. by exists x, opt, d. }
  all: assert (valid_dim opt) as Hvalid by (unfold valid_dim; rewrite Hd; subst d; auto).
  all: destruct (requested_Tol opt) as [Tol| |] eqn:HTol.
  all: try done.
  all: try (exfalso; unfold requested_Tol in HTol;
            destruct opt as [|? [|t ?]]; try done;
            unfold mbind, result_bind, first_of in HTol;
            destruct (get (pr t) 0) eqn:Hg; try done;
            by apply get_no_raise in Hg).
  all: cbv zeta; destruct (extent x _) as [m' n'].
  all: destruct (vectors _ _ _ _ _ _) as [rns| |] eqn:Hv; try done.
  all: intros [= <-]; apply vectors_raise in Hv as [-> Hex]; by exists x, opt.
Qed.

Lemma errors_and_their_causes_witness :
  exists x opt,
    [rowv [1; 2; infinity]%float; scalar 2; scalar 0] = x :: opt /\
    valid_dim opt /\ Exists (fun v => is_finite v = false) (pr x).
Proof.
  apply (errors_and_their_causes
           [rowv [1; 2; infinity]%float; scalar 2; scalar 0] NotFinite).
  vm_compute. reflexivity.
Defined.

(** ** Infinite values and the default tolerance *)

Lemma range_infinite (lo hi v : float) :
  (lo <? hi)%float = true -> fle lo v -> fle v hi ->
  v = infinity \/ v = neg_infinity ->
  (hi - lo)%float = infinity.
Proof.
  intros (Hnlo & Hnhi & Hlt)%ltb_key (_ & _ & Hlov)%fle_key (_ & _ & Hvhi)%fle_key Hv.
  apply number_spec in Hnlo, Hnhi.
  apply Prim2SF_inj. rewrite sub_spec.
  change (Prim2SF infinity) with (S754_infinity false).
  destruct Hv as [->| ->].
  - change (Prim2SF infinity) with (S754_infinity false) in *.
    destruct (Prim2SF hi) as [[]|[]| |[] mh eh]; try done;
      destruct (Prim2SF lo) as [[]|[]| |[] ml el]; done.
  - change (Prim2SF neg_infinity) with (S754_infinity true) in *.
    destruct (Prim2SF lo) as [[]|[]| |[] ml el]; try done;
      destruct (Prim2SF hi) as [[]|[]| |[] mh eh]; done.
Qed.

Lemma lex_le_lt_trans k1 k2 k3 :
  lex k1 k2 <> Gt -> lex k2 k3 = Lt -> lex k1 k3 = Lt.
Proof.
  destruct k1 as [[c1 e1] m1], k2 as [[c2 e2] m2], k3 as [[c3 e3] m3]. unfold lex.
  destruct (Z.compare_spec c1 c2), (Z.compare_spec c2 c3), (Z.compare_spec c1 c3);
    try done; try lia;
  destruct (Z.compare_spec e1 e2), (Z.compare_spec e2 e3), (Z.compare_spec e1 e3);
    try done; try lia;
  destruct (Z.compare_spec m1 m2), (Z.compare_spec m2 m3), (Z.compare_spec m1 m3);
    try done; try lia.
Qed.

Lemma lex_lt_le_trans k1 k2 k3 :
  lex k1 k2 = Lt -> lex k2 k3 <> Gt -> lex k1 k3 = Lt.
Proof.
  destruct k1 as [[c1 e1] m1], k2 as [[c2 e2] m2], k3 as [[c3 e3] m3]. unfold lex.
  destruct (Z.compare_spec c1 c2), (Z.compare_spec c2 c3), (Z.compare_spec c1 c3);
    try done; try lia;
  destruct (Z.compare_spec e1 e2), (Z.compare_spec e2 e3), (Z.compare_spec e1 e3);
    try done; try lia;
  destruct (Z.compare_spec m1 m2), (Z.compare_spec m2 m3), (Z.compare_spec m1 m3);
    try done; try lia.
Qed.

Lemma fle_ltb_fle p q r s :
  fle p q -> (q <? r)%float = true -> fle r s -> (p <? s)%float = true.
Proof.
  intros (Hp & _ & H1)%fle_key (_ & _ & H2)%ltb_key (_ & Hs & H3)%fle_key.
  apply ltb_key. split_and!; try done.
  eapply lex_lt_le_trans; [|exact H3]. by eapply lex_le_lt_trans.
Qed.

(** X5.  Infinite values under the default tolerance.  For a vector
    without NaN that holds an infinite value and two values of which one
    is below the other, and no [Tol]: the range and the tolerance are
    both infinite, the loop breaks at the range test of its first pass,
    no value is tested, nothing is raised, and the estimate is the
    seed. *)
Theorem infinite_values_pass_unchecked (xs : list float) (u w v : float) :
  Forall number xs -> u ∈ xs -> w ∈ xs -> (u <? w)%float = true ->
  v ∈ xs -> v = infinity \/ v = neg_infinity ->
  exists st,
    start (sort xs) = Done st /\ range st = infinity /\
    smooth xs None = Done (mkRun (M st) false ByRange 1 0).
Proof.
  intros Hnum Hu Hw Huw Hv Hinf.
  assert (xs <> []) as Hne by (intros ->; by apply elem_of_nil in Hu).
  destruct (start_of_sorted xs Hne Hnum)
    as (st & Hst & _ & _ & _ & _ & Hall & Hrange & _).
  assert ((a st <? b st)%float = true) as Hab.
  { destruct (Hall u Hu) as [Hau _]. destruct (Hall w Hw) as [_ Hwb].
    by eapply fle_ltb_fle. }
  destruct (Hall v Hv) as [Hav Hvb].
  pose proof (range_infinite (a st) (b st) v Hab Hav Hvb Hinf) as Hinfty.
  rewrite <- Hrange in Hinfty.
  exists st. split_and!; try done.
  unfold smooth. rewrite Hst. unfold mbind, result_bind.
  rewrite iterate_S. unfold body. rewrite Hinfty.
  change (infinity <=? default_Tol infinity)%float with true. done.
Qed.

Lemma infinite_values_pass_unchecked_witness :
  exists st,
    start (sort [1; neg_infinity; 2; infinity]%float) = Done st /\
    range st = infinity /\
    smooth [1; neg_infinity; 2; infinity]%float None =
      Done (mkRun (M st) false ByRange 1 0).
Proof.
  apply (infinite_values_pass_unchecked
           [1; neg_infinity; 2; infinity]%float 1%float 2%float neg_infinity).
  - repeat constructor.
  - repeat constructor.
  - repeat constructor.
  - reflexivity.
  - repeat constructor.
  - by right.
Defined.

End SmoothMedianFacts.
